(** * goini: an in-memory model of an INI file

    A shallow embedding of [sections.go] (package [goini]): the [Section]
    type with its option store, the [IniFile] registry of sections, the
    line parser and the serializer, followed by the properties of the
    specification that concern them.

    Go strings are byte strings: they are modelled by [string], whose
    characters are the 256 values of [ascii].  Go maps are [gmap]s.  A
    [*Section] is an address in a store of sections, so that an option added
    through the pointer returned by [AddSection] is seen through the
    registry.  The mutexes are not modelled: every operation is taken to run
    alone, from its [Lock] to its [Unlock].  [Save] and [PrintSection], which
    write what [String] returns to a file and to the standard output, are
    left out. *)

From Stdlib Require Import ZArith Ascii.
From stdpp Require Import gmap strings list fin_maps.

(** ** Results of Go functions *)

(** The values of type [error] the program meets. *)
Inductive error :=
  | errors_New (text : string)        (* errors.New(text) *)
  | regexp_Error (pattern : string)   (* the syntax error of regexp.Compile *)
  | bufio_ErrTooLong                  (* bufio.Scanner: token too long *)
  | os_PathError (path : string).     (* os.Open failed *)

(** A Go result [(v, err)] where exactly one of the two is set. *)
Inductive result (A : Type) :=
  | Ok (a : A)
  | Err (e : error).
Arguments Ok {A} a.
Arguments Err {A} e.

(** A call either returns or panics at run time. *)
Inductive outcome (A : Type) :=
  | Return (a : A)
  | Panic.
Arguments Return {A} a.
Arguments Panic {A}.

Definition LF : ascii := "010"%char.
Definition CR : ascii := "013"%char.
Definition nl : string := String LF "".

(** ** Package [strings]: the functions the program calls *)

Module strings.

Fixpoint HasPrefix (s prefix : string) {struct prefix} : bool :=
  match prefix, s with
  | "", _ => true
  | String p prefix', String c s' => Ascii.eqb c p && HasPrefix s' prefix'
  | String _ _, "" => false
  end.

Fixpoint Index_from (i : Z) (s substr : string) : Z :=
  if HasPrefix s substr then i
  else match s with
       | "" => (-1)%Z
       | String _ s' => Index_from (i + 1)%Z s' substr
       end.

(** [Index s substr] is the index of the first instance of [substr] in
    [s], or -1. *)
Definition Index (s substr : string) : Z := Index_from 0%Z s substr.

Fixpoint take (n : nat) (s : string) : string :=
  match n, s with
  | S n', String c s' => String c (take n' s')
  | _, _ => ""
  end.

Fixpoint drop (n : nat) (s : string) : string :=
  match n, s with
  | S n', String _ s' => drop n' s'
  | _, _ => s
  end.

(** The slice expressions [s[:i]] and [s[i:]], for [0 <= i <= len(s)]. *)
Definition slice_to (s : string) (i : Z) : string := take (Z.to_nat i) s.
Definition slice_from (s : string) (i : Z) : string := drop (Z.to_nat i) s.

Fixpoint contains (cutset : string) (c : ascii) : bool :=
  match cutset with
  | "" => false
  | String d cutset' => Ascii.eqb c d || contains cutset' c
  end.

Fixpoint TrimLeft (s cutset : string) : string :=
  match s with
  | "" => ""
  | String c s' => if contains cutset c then TrimLeft s' cutset else s
  end.

Fixpoint TrimRight (s cutset : string) : string :=
  match s with
  | "" => ""
  | String c s' =>
      match TrimRight s' cutset with
      | "" => if contains cutset c then "" else String c ""
      | t => String c t
      end
  end.

(** [Trim s cutset]: [s] without its leading and trailing bytes that are
    in [cutset] (the cutsets of the program are ASCII). *)
Definition Trim (s cutset : string) : string :=
  TrimLeft (TrimRight s cutset) cutset.

Fixpoint Join (elems : list string) (sep : string) : string :=
  match elems with
  | [] => ""
  | [e] => e
  | e :: elems' => e +:+ sep +:+ Join elems' sep
  end.

End strings.

(** ** Removing from a slice while ranging over it

    Both [Delete] methods run [s = append(s[:i], s[i+1:]...)] inside
    [for i, x := range s].  The [range] clause reads the slice header once:
    the loop visits the indices below the length the slice had on entry and
    reads cell [i] of the backing array when it gets there, while each
    removal moves the cells after [i] down by one in that same array and
    shortens the slice.  [cells] are the cells the loop visits and [len] is
    the current length of the slice. *)

Record slice := mkslice { cells : list string; len : nat }.

(** [append(s[:i], s[i+1:]...)]: the slice expression [s[i+1:]] panics
    when [i+1] exceeds the current length; otherwise the cells from [i+1]
    to [len - 1] are copied to [i ..], and the cells from [len - 1] on keep
    what they held. *)
Definition remove_at (i : nat) (s : slice) : outcome slice :=
  if bool_decide (i + 1 ≤ len s) then
    Return (mkslice (take i (cells s)
                       ++ take (len s - (i + 1)) (drop (i + 1) (cells s))
                       ++ drop (len s - 1) (cells s))
                    (len s - 1))
  else Panic.

(** The contents of the slice: its first [len] cells. *)
Definition contents (s : slice) : list string := take (len s) (cells s).

(** ** [type Section struct] *)

Module Section_.

Record t := mk {
  name : string;
  options : gmap string string;
  orderedOptions : list string
}.

(** [&Section{name: name, options: make(map[string]string)}] *)
Definition new (name : string) : t := mk name ∅ [].

Definition Name (s : t) : string := name s.

Definition Exists (s : t) (option : string) : bool :=
  bool_decide (is_Some (options s !! option)).

(** Reading a Go map at a missing key gives the zero value. *)
Definition ValueOf (s : t) (option : string) : string :=
  default "" (options s !! option).

Definition SetValueFor (s : t) (option value : string) : t * string :=
  let oldValue := default "" (options s !! option) in
  (mk (name s) (<[option := value]> (options s)) (orderedOptions s), oldValue).

Definition Add (s : t) (option value : string) : t * string :=
  let ordered :=
    match options s !! option with
    | Some _ => orderedOptions s
    | None => orderedOptions s ++ [option]
    end in
  let oldValue := default "" (options s !! option) in
  (mk (name s) (<[option := value]> (options s)) ordered, oldValue).

(** The loop of [Delete], at the indices [idx] still to visit. *)
Fixpoint Delete_loop (option : string) (idx : list nat) (s : slice) : outcome slice :=
  match idx with
  | [] => Return s
  | i :: idx' =>
      let opt := default "" (cells s !! i) in
      if bool_decide (opt = option) then
        match remove_at i s with
        | Return s' => Delete_loop option idx' s'
        | Panic => Panic
        end
      else Delete_loop option idx' s
  end.

Definition Delete (s : t) (option : string) : outcome (t * string) :=
  let value := default "" (options s !! option) in
  let n := length (orderedOptions s) in
  match Delete_loop option (seq 0 n) (mkslice (orderedOptions s) n) with
  | Return sl => Return (mk (name s) (delete option (options s)) (contents sl), value)
  | Panic => Panic
  end.

Definition Options (s : t) : gmap string string := options s.

Definition OptionNames (s : t) : list string := orderedOptions s.

(** The loop of [String]: one step per name of [orderedOptions]. *)
Definition String_step (s : t) (parts : list string) (opt : string) : list string :=
  let value := default "" (options s !! opt) in
  if bool_decide (value ≠ "") then parts ++ [opt; "="; value; nl]
  else parts ++ [opt; nl].

Definition String (s : t) : string :=
  let sName :=
    if bool_decide (name s = "global") then "" else "[" +:+ name s +:+ "]" +:+ nl in
  let parts := foldl (String_step s) [sName] (orderedOptions s) in
  strings.Join parts "".

Definition parseOption (option : string) : string * string :=
  let split (i : Z) (delim : string) : string * string :=
    (strings.Trim (strings.slice_to option i) " ",
     strings.Trim (strings.slice_from option (i + 1)) " ") in
  let i := strings.Index option "=" in
  if bool_decide (i ≠ (-1)%Z) then split i "="
  else
    let i := strings.Index option ":" in
    if bool_decide (i ≠ (-1)%Z) then split i ":"
    else (option, "").

Definition AddOption (s : t) (option : string) : t :=
  let '(opt, value) := parseOption option in
  if bool_decide (value ≠ "") then
    mk (name s) (<[opt := value]> (options s)) (orderedOptions s)
  else s.

End Section_.

(** ** Package [regexp]

    [regexp.MatchString(pattern, s)] compiles [pattern] and, when that
    succeeds, matches [s] against it.  The syntax and the matcher belong to
    the Go library; the program is modelled over any [Compile]. *)

Definition regexp := string → option (string → bool).

Definition MatchString (Compile : regexp) (pattern s : string) : bool * option error :=
  match Compile pattern with
  | None => (false, Some (regexp_Error pattern))
  | Some re => (re s, None)
  end.

(** ** [bufio.Scanner] with its default split function [ScanLines] *)

Definition MaxScanTokenSize : Z := 64 * 1024.

Definition dropCR (data : string) : string :=
  match String.rev data with
  | String c r => if Ascii.eqb c CR then String.rev r else data
  | "" => data
  end.

(** [scan tok text]: the lines still to come when [tok] is the part of the
    current line read so far and [text] the rest of the stream, with the
    error of [scanner.Err()].  A line ends at a newline, loses one trailing
    carriage return, and the last one may lack its newline; a line that does
    not fit in the buffer stops the scan with [ErrTooLong]. *)
Fixpoint scan (tok text : string) : list string * option error :=
  match text with
  | "" => (if bool_decide (tok = "") then [] else [dropCR tok], None)
  | String c text' =>
      if Ascii.eqb c LF then
        let '(lines, err) := scan "" text' in (dropCR tok :: lines, err)
      else
        let tok' := tok +:+ String c "" in
        if (MaxScanTokenSize <=? Z.of_nat (String.length tok'))%Z
        then ([], Some bufio_ErrTooLong)
        else scan tok' text'
  end.

Definition ScanLines (text : string) : list string * option error := scan "" text.

(** ** [type IniFile struct] *)

(** A [*Section] is the index of a section in the store. *)
Abbreviation ptr := nat.

Module IniFile.

Record t := mk {
  filePath : string;
  sections : gmap string (list ptr);   (* map[string]*list.List *)
  orderedSections : list string
}.

(** The sections allocated so far. *)
Abbreviation store := (list Section_.t).

Definition deref (h : store) (p : ptr) : Section_.t :=
  default (Section_.new "") (h !! p).

Definition NewIniFile (filePathArg : string) : t := mk filePathArg ∅ [].

Definition isSection (section : string) : bool := strings.HasPrefix section "[".

Definition AddSection (h : store) (c : t) (name : string) : store * t * ptr :=
  let section := length h in
  let h' := h ++ [Section_.new name] in
  match sections c !! name with
  | None =>
      (h', mk (filePath c) (<[name := [section]]> (sections c))
              (orderedSections c ++ [name]), section)
  | Some lst =>
      (h', mk (filePath c) (<[name := lst ++ [section]]> (sections c))
              (orderedSections c), section)
  end.

Definition FilePath (c : t) : string := filePath c.

Definition Section (c : t) (name : string) : result ptr :=
  match sections c !! name with
  | Some (s :: _) => Ok s
  | _ => Err (errors_New ("Unable to find " +:+ name))
  end.

Definition StringValue (h : store) (c : t) (section option : string) : result string :=
  match Section c section with
  | Err err => Err err
  | Ok s => Ok (Section_.ValueOf (deref h s) option)
  end.

Definition Sections (c : t) (name : string) : result (list ptr) :=
  if bool_decide (name = "") then
    Ok (foldl (λ sections' name,
                 match sections c !! name with
                 | Some lst => sections' ++ lst
                 | None => sections'
                 end) [] (orderedSections c))
  else
    match sections c !! name with
    | Some lst => Ok lst
    | None => Err (errors_New ("Unable to find " +:+ name))
    end.

(** The loop of [Find] over the keys of [c.sections], in the order [keys]
    in which [range] happens to visit them. *)
Fixpoint Find_loop (Compile : regexp) (c : t) (regex : string)
    (keys : list string) (sections' : list ptr) : result (list ptr) :=
  match keys with
  | [] => Ok sections'
  | key :: keys' =>
      let lst := default [] (sections c !! key) in
      match MatchString Compile regex key with
      | (true, _) => Find_loop Compile c regex keys' (sections' ++ lst)
      | (false, Some err) => Err err
      | (false, None) => Find_loop Compile c regex keys' sections'
      end
  end.

Definition Find (Compile : regexp) (keys : list string) (c : t) (regex : string)
    : result (list ptr) :=
  Find_loop Compile c regex keys [].

(** The second loop of [Delete], over [c.orderedSections]. *)
Fixpoint Delete_loop (Compile : regexp) (regex : string) (idx : list nat) (s : slice)
    : outcome (slice * option error) :=
  match idx with
  | [] => Return (s, None)
  | i :: idx' =>
      let name := default "" (cells s !! i) in
      match MatchString Compile regex name with
      | (true, _) =>
          match remove_at i s with
          | Return s' => Delete_loop Compile regex idx' s'
          | Panic => Panic
          end
      | (false, Some err) => Return (s, Some err)
      | (false, None) => Delete_loop Compile regex idx' s
      end
  end.

(** [Delete] leaves the configuration in the state of its first
    component and returns the second. *)
Definition Delete (Compile : regexp) (keys : list string) (h : store) (c : t)
    (regex : string) : outcome (t * result (list ptr)) :=
  match Find Compile keys c regex with
  | Err err => Return (c, Err err)
  | Ok found =>
      let m := foldl (λ m s, delete (Section_.name (deref h s)) m) (sections c) found in
      let n := length (orderedSections c) in
      match Delete_loop Compile regex (seq 0 n) (mkslice (orderedSections c) n) with
      | Panic => Panic
      | Return (sl, Some err) => Return (mk (filePath c) m (contents sl), Err err)
      | Return (sl, None) => Return (mk (filePath c) m (contents sl), Ok found)
      end
  end.

Definition String (h : store) (c : t) : string :=
  let parts :=
    foldl (λ parts name,
             match Sections c name with
             | Ok sections' =>
                 foldl (λ parts section, parts ++ [Section_.String (deref h section)])
                       parts sections'
             | Err _ => parts
             end) [] (orderedSections c) in
  strings.Join parts "".

(** The body of the scanning loop of [Parse], for one line. *)
Definition Parse_line (st : store * t * ptr) (line : string) : store * t * ptr :=
  let '(h, c, activeSection) := st in
  if negb (strings.HasPrefix line "#" || strings.HasPrefix line ";")
     && bool_decide (0 < String.length line) then
    if isSection line then
      let name := strings.Trim line " []" in
      AddSection h c name
    else (alter (λ s, Section_.AddOption s line) activeSection h, c, activeSection)
  else (alter (λ s, Section_.AddOption s line) activeSection h, c, activeSection).

(** [Parse filePath]: [filePath] is the path as [path.Clean] returns it
    and [file] the contents [os.Open] gives access to, [None] when it
    fails.  The result is the store of the sections with the
    configuration. *)
Definition Parse (filePath : string) (file : option string) : result (store * t) :=
  match file with
  | None => Err (os_PathError filePath)
  | Some text =>
      let c := NewIniFile filePath in
      let st := AddSection [] c "global" in
      let '(lines, err) := ScanLines text in
      let '(h, c, _) := foldl Parse_line st lines in
      match err with
      | Some err => Err err
      | None => Ok (h, c)
      end
  end.

End IniFile.

(** ** An instance of [regexp]

    The patterns made of an optional leading [^] and bytes that stand for
    themselves, with the meaning Go's syntax gives them: the literal is
    looked for at the start of the text, or anywhere in it.  Every other
    pattern is refused, as [regexp.Compile] refuses an unbalanced
    parenthesis.  It serves to run the operations on examples. *)

Definition is_meta (c : ascii) : bool := strings.contains "\.+*?()|[]{}^$" c.

Fixpoint is_literal (pattern : string) : bool :=
  match pattern with
  | "" => true
  | String c pattern' => negb (is_meta c) && is_literal pattern'
  end.

Definition literal_regexp : regexp := λ pattern,
  match pattern with
  | String "^" lit =>
      if is_literal lit then Some (λ s, strings.HasPrefix s lit) else None
  | _ =>
      if is_literal pattern
      then Some (λ s, bool_decide (strings.Index s pattern ≠ (-1)%Z))
      else None
  end.

(** ** The parsing of a line, in the words of the specification

    [cut d s] splits [s] at the first [d]: what is before it and what is
    after it. *)

Fixpoint cut (d : ascii) (s : string) : option (string * string) :=
  match s with
  | "" => None
  | String c s' =>
      if Ascii.eqb c d then Some ("", s')
      else match cut d s' with
           | Some (before, after) => Some (String c before, after)
           | None => None
           end
  end.

(** Split on the first [=] if there is one, else on the first [:], and trim
    the spaces around both sides; else the line as it is, with the empty
    value. *)
Definition parseOption_words (line : string) : string * string :=
  match cut "=" line with
  | Some (key, value) => (strings.Trim key " ", strings.Trim value " ")
  | None =>
      match cut ":" line with
      | Some (key, value) => (strings.Trim key " ", strings.Trim value " ")
      | None => (line, "")
      end
  end.

(** ** Bytes at the ends of a string *)

Definition first_byte (s : string) : option ascii :=
  match s with
  | "" => None
  | String c _ => Some c
  end.

Fixpoint last_byte (s : string) : option ascii :=
  match s with
  | "" => None
  | String c "" => Some c
  | String _ s' => last_byte s'
  end.

(** Every byte of [s] is in [cutset]. *)
Fixpoint all_in (cutset s : string) : bool :=
  match s with
  | "" => true
  | String c s' => strings.contains cutset c && all_in cutset s'
  end.

(** [c] is not a byte of [cutset]; no condition on the end of an empty
    string. *)
Definition outside (cutset : string) (c : option ascii) : Prop :=
  match c with
  | None => True
  | Some c => strings.contains cutset c = false
  end.

(** ** The registry of a configuration *)

(** The instances registered under a name, in the order of their creation. *)
Definition instances (c : IniFile.t) (name : string) : list ptr :=
  default [] (IniFile.sections c !! name).

(** [range] over a Go map visits every key once, in an order the language
    leaves open: [keys] is such an order for [c.sections]. *)
Definition range_order (c : IniFile.t) (keys : list string) : Prop :=
  keys ≡ₚ (map_to_list (IniFile.sections c)).*1.

(** The invariant of the data model: every name of the ordered sequence has
    instances in the mapping, and every name of the mapping is in the
    ordered sequence. *)
Definition registry_inv (c : IniFile.t) : Prop :=
  (∀ name, name ∈ IniFile.orderedSections c → instances c name ≠ []) ∧
  (∀ name, is_Some (IniFile.sections c !! name) → name ∈ IniFile.orderedSections c).

(** The sections registered under a name bear that name: [AddSection]
    creates them so and nothing renames a section. *)
Definition names_agree (h : IniFile.store) (c : IniFile.t) : Prop :=
  ∀ name s, s ∈ instances c name → Section_.name (IniFile.deref h s) = name.

(** The store holds a section of the right name at every address of the
    registry. *)
Definition store_ok (h : IniFile.store) (c : IniFile.t) : Prop :=
  ∀ name s, s ∈ instances c name → Section_.name <$> h !! s = Some name.

(** ** The loop the two [Delete] methods share

    [Section.Delete] removes the cells equal to the option and
    [IniFile.Delete] the cells the pattern matches: with [P] for the test,
    both are this loop. *)

Fixpoint remove_matching (P : string → bool) (idx : list nat) (s : slice) : outcome slice :=
  match idx with
  | [] => Return s
  | i :: idx' =>
      if P (default "" (cells s !! i)) then
        match remove_at i s with
        | Return s' => remove_matching P idx' s'
        | Panic => Panic
        end
      else remove_matching P idx' s
  end.

(** ** The option store of a section

    What the methods of [Section] keep true of a section: no name is twice
    in the order sequence, and every name of the order sequence has a value
    in the option map. *)

Definition section_inv (s : Section_.t) : Prop :=
  NoDup (Section_.orderedOptions s) ∧
  ∀ k, k ∈ Section_.orderedOptions s → is_Some (Section_.options s !! k).

(** The line [String] writes for an option. *)
Definition option_line (kv : string * string) : string :=
  if bool_decide (kv.2 ≠ "") then kv.1 +:+ "=" +:+ kv.2 +:+ nl else kv.1 +:+ nl.

(** The header [String] writes for a section. *)
Definition header (name : string) : string :=
  if bool_decide (name = "global") then "" else "[" +:+ name +:+ "]" +:+ nl.

(** The concatenation of strings. *)
Fixpoint concat_strings (l : list string) : string :=
  match l with
  | [] => ""
  | x :: l' => x +:+ concat_strings l'
  end.

(** A section filled by successive calls of [Add]. *)
Definition add_all (s : Section_.t) (kvs : list (string * string)) : Section_.t :=
  foldl (λ s kv, (Section_.Add s kv.1 kv.2).1) s kvs.

(** A line the scanning loop of [Parse] treats as a section header. *)
Definition is_header (line : string) : bool := IniFile.isSection line.

(** A line that has no delimiter and is no header: a blank line, a bare
    token, a comment without [=] and [:]. *)
Definition is_dropped (line : string) : bool :=
  negb (IniFile.isSection line)
  && negb (strings.contains line "=") && negb (strings.contains line ":").

(** The lines of a file, cut at the headers: each block is a header line
    with the lines that follow it up to the next header. *)
Definition block_lines (blocks : list (string * list string)) : list string :=
  concat (map (λ hb, hb.1 :: hb.2) blocks).

(** The section a block gives: named by the header, filled by [AddOption]
    with the lines of the block. *)
Definition block_section (hb : string * list string) : Section_.t :=
  foldl Section_.AddOption (Section_.new (strings.Trim hb.1 " []")) hb.2.

(** A header line followed by lines that are no headers. *)
Definition is_block (hb : string * list string) : Prop :=
  IniFile.isSection hb.1 = true ∧ Forall (λ line, IniFile.isSection line = false) hb.2.

(** The header lines [String] writes for the sections of [names], with
    [count name] sections under each name, without the newlines: none for
    [global], whose sections have no header. *)
Definition header_lines (count : string → nat) (names : list string) : list string :=
  concat (map (λ name, if bool_decide (name = "global") then []
                       else replicate (count name) ("[" +:+ name +:+ "]")) names).

(** A section name as the scanning loop of [Parse] makes them: without a
    newline and without a space or square bracket at either end. *)
Definition is_name (name : string) : Prop :=
  strings.contains name LF = false ∧
  outside " []" (first_byte name) ∧ outside " []" (last_byte name).

(** ** Examples *)

(** The scenario of the specification, as the text of a file. *)
Definition four_lines : string :=
  "foo=bar" +:+ nl +:+ "[section]" +:+ nl +:+ "; a comment" +:+ nl +:+ "baz = qux" +:+ nl.

(** The same two sections, their options registered with [Add]. *)
Definition two_sections_added : IniFile.store * IniFile.t :=
  let '(h, c, global) := IniFile.AddSection [] (IniFile.NewIniFile "f") "global" in
  let h := alter (λ s, (Section_.Add s "foo" "bar").1) global h in
  let '(h, c, section) := IniFile.AddSection h c "section" in
  let h := alter (λ s, (Section_.Add s "baz" "qux").1) section h in
  (h, c).

(** A configuration with the sections [db-1], [db-2] and [cache-1]. *)
Definition db_cache : IniFile.store * IniFile.t :=
  let r1 := IniFile.AddSection [] (IniFile.NewIniFile "f") "db-1" in
  let r2 := IniFile.AddSection r1.1.1 r1.1.2 "db-2" in
  (IniFile.AddSection r2.1.1 r2.1.2 "cache-1").1.

(** * Properties *)

Example parseOption_eq : Section_.parseOption "baz = qux" = ("baz", "qux").
Proof. reflexivity. Qed.

Example parseOption_colon : Section_.parseOption " host : example.org:80 " = ("host", "example.org:80").
Proof. reflexivity. Qed.

Example parseOption_bare : Section_.parseOption "; a comment" = ("; a comment", "").
Proof. reflexivity. Qed.

(** ** Strings *)

Lemma append_cons (c : ascii) (a b : string) : String c a +:+ b = String c (a +:+ b).
Proof. reflexivity. Qed.

Lemma append_nil_l (s : string) : "" +:+ s = s.
Proof. reflexivity. Qed.

Lemma append_nil_r (s : string) : s +:+ "" = s.
Proof. induction s as [|c s IH]; [done|]. by rewrite append_cons, IH. Qed.

Lemma append_assoc (a b c : string) : (a +:+ b) +:+ c = a +:+ b +:+ c.
Proof. induction a as [|x a IH]; [done|]. by rewrite !append_cons, IH. Qed.

(** What [cut] returns: the text before the first [d] and the text after it. *)
Lemma cut_Some (d : ascii) (s before after : string) :
  cut d s = Some (before, after) ↔
  s = before +:+ String d after ∧ strings.contains before d = false.
Proof.
  revert before after. induction s as [|c s IH]; intros before after; cbn.
  - split; [done|]. intros [H _]. by destruct before.
  - destruct (Ascii.eqb_spec c d) as [->|Hcd].
    + split.
      * intros [= <- <-]. done.
      * intros [H Hn]. destruct before as [|x before].
        -- rewrite append_nil_l in H. by injection H as ->.
        -- rewrite append_cons in H. injection H as <- _. cbn in Hn.
           by rewrite Ascii.eqb_refl in Hn.
    + destruct (cut d s) as [[b a]|] eqn:Hcut.
      * split.
        -- intros [= <- <-]. destruct (proj1 (IH b a) eq_refl) as [-> Hn].
           split; [done|]. cbn.
           destruct (Ascii.eqb_spec d c) as [->|_]; done.
        -- intros [H Hn]. destruct before as [|x before].
           ++ rewrite append_nil_l in H. by injection H as ->.
           ++ rewrite append_cons in H. injection H as <- H. cbn in Hn.
              apply orb_false_elim in Hn as [_ Hn].
              assert (Some (b, a) = Some (before, after)) as [= -> ->]; [|done].
              by apply IH.
      * split; [done|]. intros [H Hn]. destruct before as [|x before].
        -- rewrite append_nil_l in H. by injection H as ->.
        -- rewrite append_cons in H. injection H as <- H. cbn in Hn.
           apply orb_false_elim in Hn as [_ Hn].
           assert (None = Some (before, after)); [|done]. by apply IH.
Qed.

Lemma cut_None (d : ascii) (s : string) :
  cut d s = None ↔ strings.contains s d = false.
Proof.
  induction s as [|c s IH]; cbn; [done|].
  rewrite (Ascii.eqb_sym d c).
  destruct (Ascii.eqb c d); cbn; [done|].
  destruct (cut d s) as [[b a]|]; [|tauto].
  split; [done|]. intros H. by apply IH in H.
Qed.

(** [Index] for a one-byte separator finds the place where [cut] splits. *)
Lemma Index_from_cut (d : ascii) (s : string) (i : Z) :
  match cut d s with
  | Some (before, after) =>
      strings.Index_from i s (String d "") = (i + Z.of_nat (String.length before))%Z
      ∧ before = strings.take (String.length before) s
      ∧ after = strings.drop (S (String.length before)) s
  | None => strings.Index_from i s (String d "") = (-1)%Z
  end.
Proof.
  revert i. induction s as [|c s IH]; intros i; cbn; [done|].
  destruct (Ascii.eqb c d); cbn.
  - split; [lia|done].
  - specialize (IH (i + 1)%Z). destruct (cut d s) as [[b a]|]; [|done].
    destruct IH as (-> & Hb & Ha). cbn. split; [lia|]. split; [by f_equal|done].
Qed.

(** [TrimLeft] removes a prefix made of bytes of the cutset, and what
    remains does not start with one. *)
Lemma TrimLeft_spec (s cutset : string) :
  ∃ l, s = l +:+ strings.TrimLeft s cutset ∧ all_in cutset l = true ∧
       outside cutset (first_byte (strings.TrimLeft s cutset)).
Proof.
  induction s as [|c s (l & Hs & Hl & Hfirst)]; cbn.
  - by exists "".
  - destruct (strings.contains cutset c) eqn:Hc.
    + exists (String c l). rewrite append_cons, <- Hs. cbn. by rewrite Hc, Hl.
    + exists "". by cbn.
Qed.

(** [TrimRight] removes a suffix made of bytes of the cutset, and what
    remains does not end with one. *)
Lemma TrimRight_spec (s cutset : string) :
  ∃ r, s = strings.TrimRight s cutset +:+ r ∧ all_in cutset r = true ∧
       outside cutset (last_byte (strings.TrimRight s cutset)).
Proof.
  induction s as [|c s (r & Hs & Hr & Hlast)]; cbn.
  - by exists "".
  - destruct (strings.TrimRight s cutset) as [|d t] eqn:Ht.
    + destruct (strings.contains cutset c) eqn:Hc.
      * exists (String c r). rewrite append_nil_l in Hs. subst r.
        rewrite append_nil_l. cbn. by rewrite Hc, Hr.
      * exists r. rewrite append_cons, <- Hs. by cbn.
    + exists r. rewrite append_cons, <- Hs. by cbn.
Qed.

Lemma last_byte_append (l t : string) :
  t ≠ "" → last_byte (l +:+ t) = last_byte t.
Proof.
  intros Ht. induction l as [|c l IH]; [done|].
  rewrite append_cons. cbn. rewrite IH.
  destruct (l +:+ t) eqn:Hlt; [|done].
  destruct l; [by rewrite append_nil_l in Hlt|by rewrite append_cons in Hlt].
Qed.

(** [Trim] removes the bytes of the cutset at both ends, and only them. *)
Lemma Trim_spec (s cutset : string) :
  ∃ l r, s = l +:+ strings.Trim s cutset +:+ r ∧
         all_in cutset l = true ∧ all_in cutset r = true ∧
         outside cutset (first_byte (strings.Trim s cutset)) ∧
         outside cutset (last_byte (strings.Trim s cutset)).
Proof.
  unfold strings.Trim.
  destruct (TrimRight_spec s cutset) as (r & Hs & Hr & Hlast).
  destruct (TrimLeft_spec (strings.TrimRight s cutset) cutset) as (l & Ht & Hl & Hfirst).
  exists l, r. split; [by rewrite <- append_assoc, <- Ht|].
  split; [done|]. split; [done|]. split; [done|].
  destruct (strings.TrimLeft (strings.TrimRight s cutset) cutset) as [|c t] eqn:Htl; [done|].
  rewrite Ht in Hlast. by rewrite last_byte_append in Hlast.
Qed.

Example Trim_header : strings.Trim "[ my section ] " " []" = "my section".
Proof. reflexivity. Qed.

(** ** Lines of a file *)

Example ScanLines_crlf :
  ScanLines ("a=1" +:+ String CR nl +:+ nl +:+ "[s]" +:+ nl +:+ "b=2")
    = (["a=1"; ""; "[s]"; "b=2"], None).
Proof. reflexivity. Qed.

Example ScanLines_empty : ScanLines "" = ([], None).
Proof. reflexivity. Qed.

(** ** Section: the option store *)

(** The code finds the delimiter with [strings.Index] and slices around it:
    this is the parsing the specification words. *)
Lemma parseOption_words_eq (line : string) :
  Section_.parseOption line = parseOption_words line.
Proof.
  unfold Section_.parseOption, parseOption_words, strings.Index,
    strings.slice_to, strings.slice_from.
  pose proof (Index_from_cut "=" line 0) as Heq.
  destruct (cut "=" line) as [[key value]|].
  - destruct Heq as (-> & Hk & Hv).
    rewrite bool_decide_eq_true_2 by lia.
    replace (Z.to_nat (0 + Z.of_nat (String.length key))) with (String.length key) by lia.
    replace (Z.to_nat (0 + Z.of_nat (String.length key) + 1)) with (S (String.length key)) by lia.
    by rewrite <- Hk, <- Hv.
  - rewrite Heq. rewrite bool_decide_eq_false_2 by (intros H; by apply H).
    pose proof (Index_from_cut ":" line 0) as Hco.
    destruct (cut ":" line) as [[key value]|].
    + destruct Hco as (-> & Hk & Hv).
      rewrite bool_decide_eq_true_2 by lia.
      replace (Z.to_nat (0 + Z.of_nat (String.length key))) with (String.length key) by lia.
      replace (Z.to_nat (0 + Z.of_nat (String.length key) + 1)) with (S (String.length key)) by lia.
      by rewrite <- Hk, <- Hv.
    + rewrite Hco. by rewrite bool_decide_eq_false_2 by (intros H; by apply H).
Qed.

(** [String] reads the options only at the names of the order sequence. *)
Lemma foldl_String_step_agree (s s' : Section_.t) (names parts : list string) :
  (∀ opt, opt ∈ names → Section_.options s !! opt = Section_.options s' !! opt) →
  foldl (Section_.String_step s) parts names = foldl (Section_.String_step s') parts names.
Proof.
  revert parts. induction names as [|opt names IH]; intros parts Hagree; [done|].
  cbn. unfold Section_.String_step at 2 4.
  rewrite (Hagree opt) by set_solver.
  apply IH. intros o Ho. apply Hagree. set_solver.
Qed.



(** C6: [Add k v] on a section where [k] is absent appends [k] to the order
    sequence and returns the empty string; where [k] is present it leaves
    the order sequence as it is (so its length and the position of [k]) and
    returns the previous value; in both cases [k] then has the value [v].
    Hence a second [Add k v] leaves [OptionNames] unchanged and returns
    [v]. *)
Theorem Add_registers_once (s : Section_.t) (k v : string) :
  let s1 := (Section_.Add s k v).1 in
  let s2 := (Section_.Add s1 k v).1 in
  (if Section_.Exists s k
   then Section_.OptionNames s1 = Section_.OptionNames s
        ∧ (Section_.Add s k v).2 = Section_.ValueOf s k
   else Section_.OptionNames s1 = Section_.OptionNames s ++ [k]
        ∧ (Section_.Add s k v).2 = "") ∧
  Section_.Exists s1 k = true ∧
  Section_.ValueOf s1 k = v ∧
  Section_.OptionNames s2 = Section_.OptionNames s1 ∧
  (Section_.Add s1 k v).2 = v.
Proof.
  unfold Section_.Add, Section_.Exists, Section_.ValueOf, Section_.OptionNames. cbn.
  rewrite !lookup_insert_eq. cbn.
  destruct (Section_.options s !! k) as [old|] eqn:Hk; cbn; by rewrite ?app_nil_r.
Qed.

(** C7: [SetValueFor name value] sets the stored value and returns the
    previous one, the empty string when the name was absent; the order
    sequence, the section name and the other options stay as they were.  So
    for an absent name the option now exists, with its value, and
    [OptionNames] has not received it, whereas [Add] appends an absent
    name. *)
Theorem SetValueFor_keeps_order (s : Section_.t) (name value : string) :
  let s' := (Section_.SetValueFor s name value).1 in
  Section_.OptionNames s' = Section_.OptionNames s ∧
  Section_.Exists s' name = true ∧
  Section_.ValueOf s' name = value ∧
  (Section_.SetValueFor s name value).2
    = (if Section_.Exists s name then Section_.ValueOf s name else "") ∧
  Section_.options s' = <[name := value]> (Section_.options s) ∧
  Section_.Name s' = Section_.Name s ∧
  Section_.OptionNames (Section_.Add s name value).1
    = (if Section_.Exists s name then Section_.OptionNames s
       else Section_.OptionNames s ++ [name]).
Proof.
  unfold Section_.SetValueFor, Section_.Add, Section_.Exists, Section_.ValueOf,
    Section_.OptionNames, Section_.Name. cbn.
  rewrite lookup_insert_eq. cbn.
  destruct (Section_.options s !! name) as [old|] eqn:Hk; by cbn.
Qed.

(** C10 (as the claim states it, refuted): on a section where [Add] has
    registered the name, the option stored through [AddOption] is in
    [OptionNames] and in the output of [String]. *)
Lemma AddOption_on_registered_name :
  let s := (Section_.Add (Section_.new "s") "foo" "x").1 in
  let s' := Section_.AddOption s "foo=bar" in
  Section_.parseOption "foo=bar" = ("foo", "bar") ∧
  Section_.ValueOf s' "foo" = "bar" ∧
  "foo" ∈ Section_.OptionNames s' ∧
  Section_.String s' = ("[s]" +:+ nl +:+ "foo=bar" +:+ nl).
Proof. vm_compute. repeat split. apply elem_of_cons. by left. Qed.

(** C10 (amended): for every section and every raw line, [AddOption] leaves
    the order sequence as it is.  An option it stores is reported by
    [Exists] and returned by [ValueOf]; when its name was not already in the
    order sequence, the name is not in [OptionNames] afterwards and the
    output of [String] is what it was before the call.  [SetValueFor] leaves
    the order sequence alone too; [Add] appends an absent name. *)
Theorem AddOption_keeps_order (s : Section_.t) (line : string) :
  let s' := Section_.AddOption s line in
  let key := (Section_.parseOption line).1 in
  let value := (Section_.parseOption line).2 in
  Section_.OptionNames s' = Section_.OptionNames s ∧
  (value ≠ "" → Section_.Exists s' key = true ∧ Section_.ValueOf s' key = value) ∧
  (key ∉ Section_.OptionNames s →
     (key ∉ Section_.OptionNames s') ∧ Section_.String s' = Section_.String s) ∧
  (∀ k v, Section_.OptionNames (Section_.SetValueFor s k v).1 = Section_.OptionNames s) ∧
  (∀ k v, Section_.Exists s k = false →
     Section_.OptionNames (Section_.Add s k v).1 = Section_.OptionNames s ++ [k]).
Proof.
  cbv zeta. unfold Section_.AddOption.
  destruct (Section_.parseOption line) as [key value]. cbn [fst snd].
  split; [by case_bool_decide|].
  split.
  { intros Hne. rewrite bool_decide_eq_true_2 by done.
    unfold Section_.Exists, Section_.ValueOf. cbn. rewrite lookup_insert_eq.
    split; [by apply bool_decide_eq_true_2|done]. }
  split.
  { intros Hnotin. case_bool_decide; [|done]. split; [done|].
    unfold Section_.String. cbn. f_equal.
    apply foldl_String_step_agree. intros opt Hopt. cbn.
    rewrite lookup_insert_ne; [done|]. intros ->. by apply Hnotin. }
  split; [done|].
  intros k v Hk. unfold Section_.Add, Section_.OptionNames. cbn.
  unfold Section_.Exists in Hk. apply bool_decide_eq_false_1 in Hk.
  destruct (Section_.options s !! k); [|done]. by destruct Hk.
Qed.

(** The amended C10 at a fresh section: [foo] is stored and not registered. *)
Lemma AddOption_keeps_order_fresh :
  let s := Section_.new "s" in
  let s' := Section_.AddOption s "foo=bar" in
  Section_.OptionNames s' = [] ∧
  Section_.Exists s' "foo" = true ∧ Section_.ValueOf s' "foo" = "bar" ∧
  ("foo" ∉ Section_.OptionNames s') ∧
  Section_.String s' = ("[s]" +:+ nl).
Proof.
  cbv zeta.
  destruct (AddOption_keeps_order (Section_.new "s") "foo=bar") as (H1 & H2 & H3 & _).
  split; [exact H1|].
  destruct H2 as [He Hv]; [by vm_compute|].
  destruct H3 as [Hn Hs]; [by vm_compute; apply not_elem_of_nil|].
  split; [exact He|]. split; [exact Hv|]. split; [exact Hn|].
  rewrite Hs. reflexivity.
Defined.

(** ** IniFile: lookup by name *)

(** C8: [Section name] returns the first instance registered under [name]
    and fails with the error "Unable to find <name>" exactly when no
    instance is registered under it; the first instance stays the first
    when [AddSection] registers another one.  [StringValue] returns the
    value this first instance has for the option, and the same error when
    the name is unknown. *)
Theorem Section_first_instance (h : IniFile.store) (c : IniFile.t) (name option : string) :
  IniFile.Section c name
    = match instances c name with
      | s :: _ => Ok s
      | [] => Err (errors_New ("Unable to find " +:+ name))
      end ∧
  ((∃ err, IniFile.Section c name = Err err) ↔ instances c name = []) ∧
  (let '(_, c', s') := IniFile.AddSection h c name in
   IniFile.Section c' name
     = match IniFile.Section c name with Ok s => Ok s | Err _ => Ok s' end) ∧
  IniFile.StringValue h c name option
    = match instances c name with
      | s :: _ => Ok (Section_.ValueOf (IniFile.deref h s) option)
      | [] => Err (errors_New ("Unable to find " +:+ name))
      end.
Proof.
  unfold IniFile.StringValue, IniFile.AddSection, IniFile.Section, instances.
  destruct (IniFile.sections c !! name) as [[|s lst]|] eqn:Hlk; cbn;
    rewrite ?lookup_insert_eq; cbn; repeat split; try done; try by intros [? ?].
  all: by eauto.
Qed.

(** ** IniFile: an invalid regular expression *)

Lemma MatchString_invalid (Compile : regexp) (regex s : string) :
  Compile regex = None →
  MatchString Compile regex s = (false, Some (regexp_Error regex)).
Proof. intros H. unfold MatchString. by rewrite H. Qed.

(** The scan of [Find] stops at the first key it visits. *)
Lemma Find_loop_invalid (Compile : regexp) (c : IniFile.t) (regex : string)
    (keys : list string) (found : list ptr) :
  Compile regex = None →
  IniFile.Find_loop Compile c regex keys found
    = match keys with [] => Ok found | _ :: _ => Err (regexp_Error regex) end.
Proof. intros H. destruct keys; cbn; [done|]. by rewrite MatchString_invalid. Qed.

(** So does the scan of the ordered names in [Delete], before any removal. *)
Lemma Delete_loop_invalid (Compile : regexp) (regex : string) (idx : list nat) (s : slice) :
  Compile regex = None →
  IniFile.Delete_loop Compile regex idx s
    = Return (s, match idx with [] => None | _ :: _ => Some (regexp_Error regex) end).
Proof. intros H. destruct idx; cbn; [done|]. by rewrite MatchString_invalid. Qed.

Lemma contents_whole (l : list string) : contents (mkslice l (length l)) = l.
Proof. unfold contents. cbn. by rewrite firstn_all. Qed.

Lemma range_order_nil (c : IniFile.t) (keys : list string) :
  range_order c keys → keys = [] ↔ IniFile.sections c = ∅.
Proof.
  unfold range_order. intros Hperm. split.
  - intros ->. symmetry in Hperm. apply Permutation_nil_r in Hperm.
    apply fmap_nil_inv in Hperm. by apply map_to_list_empty_iff.
  - intros Hm. rewrite Hm, map_to_list_empty in Hperm.
    by apply Permutation_nil_r in Hperm.
Qed.

(** C9 (as the claim states it, refuted): on a configuration without
    sections nothing is matched against the pattern, and neither [Find] nor
    [Delete] returns an error for the unbalanced parenthesis. *)
Lemma invalid_regex_no_error_when_empty :
  literal_regexp "(" = None ∧
  IniFile.Find literal_regexp [] (IniFile.NewIniFile "f") "(" = Ok [] ∧
  IniFile.Delete literal_regexp [] [] (IniFile.NewIniFile "f") "("
    = Return (IniFile.NewIniFile "f", Ok []).
Proof. by vm_compute. Qed.

(** C9 (amended): for every configuration and every pattern that does not
    compile, [Find] returns no section and [Delete] returns no section and
    leaves the mapping and the ordered sequence as they were.  [Find]
    returns the error when the mapping has at least one name, [Delete] when
    the mapping or the ordered sequence has at least one name; on a
    configuration with neither, they return without an error. *)
Theorem invalid_regex_aborts (Compile : regexp) (keys : list string)
    (h : IniFile.store) (c : IniFile.t) (regex : string) :
  range_order c keys →
  Compile regex = None →
  IniFile.Find Compile keys c regex
    = (if bool_decide (IniFile.sections c = ∅) then Ok []
       else Err (regexp_Error regex)) ∧
  IniFile.Delete Compile keys h c regex
    = Return (c, if bool_decide (IniFile.sections c = ∅ ∧ IniFile.orderedSections c = [])
                 then Ok [] else Err (regexp_Error regex)).
Proof.
  intros Hkeys Hregex. apply range_order_nil in Hkeys.
  unfold IniFile.Delete, IniFile.Find. rewrite Find_loop_invalid by done.
  destruct keys as [|key keys].
  - assert (IniFile.sections c = ∅) as Hempty by by apply Hkeys.
    rewrite (bool_decide_eq_true_2 _ Hempty). split; [done|].
    rewrite Delete_loop_invalid by done.
    destruct c as [path m names]. cbn -[contents] in *.
    destruct names as [|name names]; cbn -[contents]; rewrite contents_whole.
    + by rewrite bool_decide_eq_true_2.
    + by rewrite bool_decide_eq_false_2 by (by intros [_ ?]).
  - assert (IniFile.sections c ≠ ∅) as Hne by (intros H; by apply Hkeys in H).
    rewrite (bool_decide_eq_false_2 _ Hne).
    by rewrite bool_decide_eq_false_2 by (by intros [? _]).
Qed.

(** The amended C9 on the configuration [db_cache]. *)
Lemma invalid_regex_aborts_db_cache :
  IniFile.Find literal_regexp ["cache-1"; "db-1"; "db-2"] db_cache.2 "("
    = (if bool_decide (IniFile.sections db_cache.2 = ∅) then Ok []
       else Err (regexp_Error "(")) ∧
  IniFile.Delete literal_regexp ["cache-1"; "db-1"; "db-2"] db_cache.1 db_cache.2 "("
    = Return (db_cache.2,
              if bool_decide (IniFile.sections db_cache.2 = ∅
                              ∧ IniFile.orderedSections db_cache.2 = [])
              then Ok [] else Err (regexp_Error "(")).
Proof.
  apply invalid_regex_aborts.
  - unfold range_order. vm_compute. reflexivity.
  - reflexivity.
Defined.

(** ** IniFile: the store behind the registry *)

Lemma store_ok_names_agree (h : IniFile.store) (c : IniFile.t) :
  store_ok h c → names_agree h c.
Proof.
  intros Hok name s Hs. specialize (Hok name s Hs). unfold IniFile.deref.
  destruct (h !! s) as [sec|]; [|done]. by injection Hok.
Qed.

Lemma store_ok_NewIniFile (filePath : string) : store_ok [] (IniFile.NewIniFile filePath).
Proof.
  intros name s. unfold instances. cbn. rewrite lookup_empty. cbn.
  by intros Hs%elem_of_nil.
Qed.

Lemma store_ok_AddSection (h : IniFile.store) (c : IniFile.t) (name : string) :
  store_ok h c →
  store_ok (IniFile.AddSection h c name).1.1 (IniFile.AddSection h c name).1.2.
Proof.
  intros Hok name' s.
  assert (∀ n s, s ∈ instances c n →
            Section_.name <$> (h ++ [Section_.new name]) !! s = Some n) as Hold.
  { intros n s' Hs'. specialize (Hok n s' Hs').
    destruct (h !! s') as [sec|] eqn:Hsec; [|done].
    rewrite lookup_app_l by (by eapply lookup_lt_Some). by rewrite Hsec. }
  assert (Section_.name <$> (h ++ [Section_.new name]) !! length h = Some name) as Hnew.
  { by rewrite list_lookup_middle. }
  pose proof (Hold name) as Hold_name.
  unfold IniFile.AddSection, instances in *.
  destruct (IniFile.sections c !! name) as [lst|] eqn:Hlk; cbn.
  - destruct (decide (name = name')) as [<-|Hne].
    + rewrite lookup_insert_eq. cbn.
      intros [Hs| ->%list_elem_of_singleton]%elem_of_app; [by apply Hold_name|done].
    + rewrite lookup_insert_ne by done. apply Hold.
  - destruct (decide (name = name')) as [<-|Hne].
    + rewrite lookup_insert_eq. cbn. by intros ->%list_elem_of_singleton.
    + rewrite lookup_insert_ne by done. apply Hold.
Qed.

Lemma store_ok_alter (h : IniFile.store) (c : IniFile.t)
    (f : Section_.t → Section_.t) (p : ptr) :
  (∀ s, Section_.name (f s) = Section_.name s) →
  store_ok h c → store_ok (alter f p h) c.
Proof.
  intros Hf Hok name s Hs. specialize (Hok name s Hs).
  rewrite list_lookup_alter. case_decide as Hp; [subst s|done].
  destruct (h !! p) as [sec|]; [|done]. cbn in *. by rewrite Hf.
Qed.

Lemma AddOption_name (s : Section_.t) (line : string) :
  Section_.name (Section_.AddOption s line) = Section_.name s.
Proof.
  unfold Section_.AddOption. destruct (Section_.parseOption line).
  by case_bool_decide.
Qed.

Lemma store_ok_Parse_line (st : IniFile.store * IniFile.t * ptr) (line : string) :
  store_ok st.1.1 st.1.2 →
  store_ok (IniFile.Parse_line st line).1.1 (IniFile.Parse_line st line).1.2.
Proof.
  destruct st as [[h c] active]. cbn. intros Hok. unfold IniFile.Parse_line.
  pose proof (store_ok_alter h c (λ s, Section_.AddOption s line) active
                (λ s, AddOption_name s line) Hok) as Halter.
  repeat case_match; try done. by apply store_ok_AddSection.
Qed.

(** The store and the registry that [Parse] returns fit together. *)
Lemma store_ok_Parse (filePath : string) (file : option string)
    (h : IniFile.store) (c : IniFile.t) :
  IniFile.Parse filePath file = Ok (h, c) → store_ok h c.
Proof.
  unfold IniFile.Parse. destruct file as [text|]; [|done].
  destruct (ScanLines text) as [lines err].
  assert (∀ st, store_ok st.1.1 st.1.2 →
            store_ok (foldl IniFile.Parse_line st lines).1.1
                     (foldl IniFile.Parse_line st lines).1.2) as Hfold.
  { induction lines as [|line lines IH]; intros st Hst; [done|].
    cbn. apply IH. by apply store_ok_Parse_line. }
  specialize (Hfold (IniFile.AddSection [] (IniFile.NewIniFile filePath) "global")).
  destruct (foldl _ _ lines) as [[h' c'] active].
  destruct err; [done|]. intros [= <- <-]. apply Hfold.
  apply store_ok_AddSection, store_ok_NewIniFile.
Qed.

(** ** IniFile: what [Find] returns *)

Lemma MatchString_compiled (Compile : regexp) (regex s : string) (re : string → bool) :
  Compile regex = Some re → MatchString Compile regex s = (re s, None).
Proof. intros H. unfold MatchString. by rewrite H. Qed.

(** With a pattern that compiles, [Find] collects the instances of the keys
    that match, key after key. *)
Lemma Find_loop_compiled (Compile : regexp) (c : IniFile.t) (regex : string)
    (re : string → bool) (keys : list string) (found : list ptr) :
  Compile regex = Some re →
  IniFile.Find_loop Compile c regex keys found
    = Ok (found ++ concat (map (λ key, if re key then instances c key else []) keys)).
Proof.
  intros Hre. revert found. induction keys as [|key keys IH]; intros found; cbn.
  - by rewrite app_nil_r.
  - rewrite (MatchString_compiled _ _ _ re) by done.
    destruct (re key); rewrite IH; [|done]. by rewrite <- app_assoc.
Qed.

Lemma range_order_elem_of (c : IniFile.t) (keys : list string) (name : string) :
  range_order c keys → name ∈ keys ↔ is_Some (IniFile.sections c !! name).
Proof.
  unfold range_order. intros ->. rewrite list_elem_of_fmap. split.
  - intros ([k lst] & -> & Hin). apply elem_of_map_to_list in Hin. by exists lst.
  - intros [lst Hlst]. exists (name, lst). split; [done|]. by apply elem_of_map_to_list.
Qed.

(** [Find] returns the sections registered under the names that match, and
    no other, in whatever order the mapping is visited. *)
Lemma Find_exactly_matched (Compile : regexp) (keys : list string) (c : IniFile.t)
    (regex : string) (re : string → bool) :
  range_order c keys →
  Compile regex = Some re →
  ∃ found,
    IniFile.Find Compile keys c regex = Ok found ∧
    ∀ s, s ∈ found ↔ ∃ name, re name = true ∧ s ∈ instances c name.
Proof.
  intros Hkeys Hre. eexists. split.
  { unfold IniFile.Find. by rewrite (Find_loop_compiled _ _ _ re). }
  intros s. cbn. rewrite list_elem_of_In, in_concat. split.
  - intros (lst & Hlst & Hs). apply list_elem_of_In in Hlst, Hs.
    apply list_elem_of_fmap in Hlst as (key & -> & Hkey).
    destruct (re key) eqn:Hm; [by exists key|]. by apply elem_of_nil in Hs.
  - intros (name & Hm & Hs). exists (instances c name).
    rewrite <- !list_elem_of_In. split; [|done].
    apply list_elem_of_fmap. exists name. rewrite Hm. split; [done|].
    apply (range_order_elem_of c); [done|]. unfold instances in Hs.
    destruct (IniFile.sections c !! name); [done|]. by apply elem_of_nil in Hs.
Qed.

(** ** IniFile: what [Delete] does to the mapping *)

Lemma foldl_delete_lookup (h : IniFile.store) (found : list ptr)
    (m : gmap string (list ptr)) (name : string) :
  let m' := foldl (λ m s, delete (Section_.name (IniFile.deref h s)) m) m found in
  ((∃ s, s ∈ found ∧ Section_.name (IniFile.deref h s) = name) → m' !! name = None) ∧
  ((∀ s, s ∈ found → Section_.name (IniFile.deref h s) ≠ name) → m' !! name = m !! name) ∧
  (m' !! name = None ∨ m' !! name = m !! name).
Proof.
  cbv zeta. revert m. induction found as [|s found IH]; intros m; cbn.
  - split; [by intros (s & Hs%elem_of_nil & _)|]. split; [done|by right].
  - destruct (IH (delete (Section_.name (IniFile.deref h s)) m)) as (IH1 & IH2 & IH3).
    destruct (decide (Section_.name (IniFile.deref h s) = name)) as [Heq|Hne].
    + assert (foldl (λ m s, delete (Section_.name (IniFile.deref h s)) m)
                (delete (Section_.name (IniFile.deref h s)) m) found !! name = None) as Hnone.
      { destruct IH3 as [H|H]; [done|]. by rewrite H, Heq, lookup_delete_eq. }
      split; [done|]. split; [|by left].
      intros Hall. exfalso. apply (Hall s); [apply elem_of_cons; by left|done].
    + rewrite lookup_delete_ne in IH2, IH3 by done.
      split.
      { intros (s' & [->|Hs']%elem_of_cons & Hname); [done|]. apply IH1. by exists s'. }
      split; [|done].
      intros Hall. apply IH2. intros s' Hs'. apply Hall. apply elem_of_cons. by right.
Qed.

(** When [Delete] returns with a pattern that compiles, no instance is left
    in the mapping under a name that matches, and the other names keep
    theirs. *)
Lemma Delete_mapping (Compile : regexp) (keys : list string) (h : IniFile.store)
    (c c' : IniFile.t) (regex : string) (re : string → bool) (r : result (list ptr)) :
  range_order c keys →
  names_agree h c →
  Compile regex = Some re →
  IniFile.Delete Compile keys h c regex = Return (c', r) →
  ∀ name, instances c' name = if re name then [] else instances c name.
Proof.
  intros Hkeys Hnames Hre Hdel name.
  destruct (Find_exactly_matched Compile keys c regex re Hkeys Hre) as (found & Hfind & Hfound).
  unfold IniFile.Delete in Hdel. rewrite Hfind in Hdel.
  destruct (foldl_delete_lookup h found (IniFile.sections c) name) as (Hgone & Hkept & Hcases).
  assert (IniFile.sections c'
          = foldl (λ m s, delete (Section_.name (IniFile.deref h s)) m)
              (IniFile.sections c) found) as Hm.
  { destruct (IniFile.Delete_loop _ _ _ _) as [[sl [err|]]|]; by simplify_eq. }
  unfold instances at 1. rewrite Hm. destruct (re name) eqn:Hmatch.
  - destruct (instances c name) as [|s lst] eqn:Hinst.
    + destruct Hcases as [->| ->]; [done|]. exact Hinst.
    + rewrite Hgone; [done|]. exists s. split.
      * apply Hfound. exists name. rewrite Hinst. split; [done|]. apply elem_of_cons. by left.
      * apply Hnames. rewrite Hinst. apply elem_of_cons. by left.
  - rewrite Hkept; [done|]. intros s Hs Hname.
    apply Hfound in Hs as (name' & Hmatch' & Hs).
    rewrite (Hnames name' s Hs) in Hname. congruence.
Qed.

(** ** IniFile: deleting the sections [db-1] and [db-2] of [db_cache] *)

(** [Delete "^db-"] on [db_cache], whatever the order in which [Find]
    visits the mapping: the two [db] sections are found and their names
    leave the mapping, but the loop over the ordered names removes [db-1]
    only.  The removal moves [db-2] to index 0, which the loop has passed;
    at indices 1 and 2 it reads [cache-1]. *)
Lemma Delete_db_cache (keys : list string) :
  range_order db_cache.2 keys →
  ∃ found,
    found ≡ₚ [0; 1] ∧
    IniFile.Delete literal_regexp keys db_cache.1 db_cache.2 "^db-"
      = Return (IniFile.mk "f" {[ "cache-1" := [2] ]} ["db-2"; "cache-1"], Ok found).
Proof.
  unfold range_order. intros Hkeys. symmetry in Hkeys.
  apply permutations_Permutation in Hkeys. vm_compute in Hkeys.
  repeat (apply elem_of_cons in Hkeys as [->|Hkeys]);
    [..|by apply elem_of_nil in Hkeys];
    (eexists; split; [|vm_compute; reflexivity]);
    first [reflexivity | apply perm_swap].
Qed.

(** C5, on the sections [db-1], [db-2], [cache-1]: [Delete "^db-"] returns
    the two [db] sections, removes both names from the mapping and leaves
    [cache-1] alone to be listed by [Sections ""]; but the name [db-2],
    which matches, stays in the ordered sequence of names. *)
Theorem Delete_keeps_matched_name_in_order (keys : list string) :
  range_order db_cache.2 keys →
  ∃ c' found,
    IniFile.Delete literal_regexp keys db_cache.1 db_cache.2 "^db-" = Return (c', Ok found) ∧
    found ≡ₚ [0; 1] ∧
    IniFile.sections c' !! "db-1" = None ∧
    IniFile.sections c' !! "db-2" = None ∧
    IniFile.Sections c' "" = Ok [2] ∧
    MatchString literal_regexp "^db-" "db-2" = (true, None) ∧
    IniFile.orderedSections c' = ["db-2"; "cache-1"].
Proof.
  intros Hkeys. destruct (Delete_db_cache keys Hkeys) as (found & Hfound & ->).
  exists (IniFile.mk "f" {[ "cache-1" := [2] ]} ["db-2"; "cache-1"]), found.
  repeat split; done.
Qed.

(** C5 in one order of the mapping. *)
Lemma Delete_keeps_matched_name_in_order_run :
  ∃ c' found,
    IniFile.Delete literal_regexp ["cache-1"; "db-1"; "db-2"] db_cache.1 db_cache.2 "^db-"
      = Return (c', Ok found) ∧
    found ≡ₚ [0; 1] ∧
    IniFile.sections c' !! "db-1" = None ∧
    IniFile.sections c' !! "db-2" = None ∧
    IniFile.Sections c' "" = Ok [2] ∧
    MatchString literal_regexp "^db-" "db-2" = (true, None) ∧
    IniFile.orderedSections c' = ["db-2"; "cache-1"].
Proof.
  apply Delete_keeps_matched_name_in_order.
  unfold range_order. vm_compute. reflexivity.
Defined.

(** When every name matches, the loop reaches an index beyond the shortened
    slice and the slice expression panics. *)
Example Delete_all_panics :
  IniFile.Delete literal_regexp ["cache-1"; "db-1"; "db-2"] db_cache.1 db_cache.2 "-" = Panic.
Proof. by vm_compute. Qed.

(** ** IniFile: the invariant of the registry *)

Lemma registry_inv_NewIniFile (filePath : string) : registry_inv (IniFile.NewIniFile filePath).
Proof.
  split; intros name; cbn.
  - intros H. by apply elem_of_nil in H.
  - rewrite lookup_empty. by intros [? ?].
Qed.

Lemma registry_inv_AddSection (h : IniFile.store) (c : IniFile.t) (name : string) :
  registry_inv c → registry_inv (IniFile.AddSection h c name).1.2.
Proof.
  intros [Hord Hmap]. unfold IniFile.AddSection, registry_inv, instances in *.
  destruct (IniFile.sections c !! name) as [lst|] eqn:Hlk; cbn.
  - split; intros name'.
    + intros Hin. destruct (decide (name = name')) as [<-|Hne].
      * rewrite lookup_insert_eq. cbn. by destruct lst.
      * rewrite lookup_insert_ne by done. by apply Hord.
    + destruct (decide (name = name')) as [<-|Hne].
      * intros _. apply Hmap. by exists lst.
      * rewrite lookup_insert_ne by done. by apply Hmap.
  - split; intros name'.
    + rewrite elem_of_app, list_elem_of_singleton.
      destruct (decide (name = name')) as [<-|Hne].
      * intros _. by rewrite lookup_insert_eq.
      * rewrite lookup_insert_ne by done. intros [Hin| ->]; [by apply Hord|done].
    + destruct (decide (name = name')) as [<-|Hne].
      * intros _. apply elem_of_app. right. by apply list_elem_of_singleton.
      * rewrite lookup_insert_ne by done. intros Hin. apply elem_of_app. left. by apply Hmap.
Qed.

(** A line of the file adds a section or changes the store only. *)
Lemma registry_inv_Parse_line (st : IniFile.store * IniFile.t * ptr) (line : string) :
  registry_inv st.1.2 → registry_inv (IniFile.Parse_line st line).1.2.
Proof.
  destruct st as [[h c] active]. unfold IniFile.Parse_line. intros Hinv.
  repeat case_match; try done. by apply registry_inv_AddSection.
Qed.

Lemma registry_inv_Parse_lines (lines : list string) (st : IniFile.store * IniFile.t * ptr) :
  registry_inv st.1.2 → registry_inv (foldl IniFile.Parse_line st lines).1.2.
Proof.
  revert st. induction lines as [|line lines IH]; intros st Hinv; [done|].
  cbn. apply IH. by apply registry_inv_Parse_line.
Qed.

(** The configurations that [NewIniFile], [AddSection] and [Parse] build
    satisfy the invariant. *)
Lemma registry_inv_Parse (filePath : string) (file : option string)
    (h : IniFile.store) (c : IniFile.t) :
  IniFile.Parse filePath file = Ok (h, c) → registry_inv c.
Proof.
  unfold IniFile.Parse. destruct file as [text|]; [|done].
  destruct (ScanLines text) as [lines err].
  pose proof (registry_inv_Parse_lines lines
    (IniFile.AddSection [] (IniFile.NewIniFile filePath) "global")) as Hinv.
  destruct (foldl _ _ lines) as [[h' c'] active].
  destruct err; [done|]. intros [= <- <-]. apply Hinv.
  apply registry_inv_AddSection, registry_inv_NewIniFile.
Qed.

(** C4, on the sections [db-1], [db-2], [cache-1]: the configuration that
    [NewIniFile] and three calls of [AddSection] build satisfies the
    invariant, and [Delete "^db-"] breaks it: [db-2] stays in the ordered
    sequence of names with no instance in the mapping. *)
Theorem Delete_breaks_registry_inv (keys : list string) :
  range_order db_cache.2 keys →
  registry_inv db_cache.2 ∧
  ∃ c' found,
    IniFile.Delete literal_regexp keys db_cache.1 db_cache.2 "^db-" = Return (c', Ok found) ∧
    "db-2" ∈ IniFile.orderedSections c' ∧
    instances c' "db-2" = [] ∧
    ¬ registry_inv c'.
Proof.
  intros Hkeys. split.
  { unfold db_cache. cbv zeta.
    do 3 apply registry_inv_AddSection. apply registry_inv_NewIniFile. }
  destruct (Delete_db_cache keys Hkeys) as (found & Hfound & ->).
  exists (IniFile.mk "f" {[ "cache-1" := [2] ]} ["db-2"; "cache-1"]), found.
  split; [done|]. split; [apply elem_of_cons; by left|]. split; [done|].
  intros [Hord _]. apply (Hord "db-2"); [apply elem_of_cons; by left|done].
Qed.

(** C4 in one order of the mapping. *)
Lemma Delete_breaks_registry_inv_run :
  registry_inv db_cache.2 ∧
  ∃ c' found,
    IniFile.Delete literal_regexp ["cache-1"; "db-1"; "db-2"] db_cache.1 db_cache.2 "^db-"
      = Return (c', Ok found) ∧
    "db-2" ∈ IniFile.orderedSections c' ∧
    instances c' "db-2" = [] ∧
    ¬ registry_inv c'.
Proof.
  apply Delete_breaks_registry_inv.
  unfold range_order. vm_compute. reflexivity.
Defined.

(** ** Parsing and serializing *)

(** A section whose order sequence is empty renders as its header alone. *)
Lemma String_no_registered_option (s : Section_.t) :
  Section_.orderedOptions s = [] →
  Section_.String s
    = if bool_decide (Section_.name s = "global") then ""
      else "[" +:+ Section_.name s +:+ "]" +:+ nl.
Proof. unfold Section_.String. by intros ->. Qed.

Lemma Parse_line_registers_no_option (st : IniFile.store * IniFile.t * ptr) (line : string) :
  Forall (λ s, Section_.orderedOptions s = []) st.1.1 →
  Forall (λ s, Section_.orderedOptions s = []) (IniFile.Parse_line st line).1.1.
Proof.
  destruct st as [[h c] active]. cbn. intros Hh.
  assert (Forall (λ s, Section_.orderedOptions s = [])
            (alter (λ s, Section_.AddOption s line) active h)) as Halter.
  { apply Forall_alter; [done|]. intros s _ Hs.
    unfold Section_.AddOption. destruct (Section_.parseOption line).
    by case_bool_decide. }
  unfold IniFile.Parse_line, IniFile.AddSection.
  repeat case_match; simplify_eq; cbn; try done.
  all: apply Forall_app; split; [done|]; by apply Forall_singleton.
Qed.

(** No section that [Parse] builds has a name in its order sequence: the
    options of the file are in the option maps only, and [String] gives the
    headers of the sections. *)
Lemma Parse_registers_no_option (filePath : string) (file : option string)
    (h : IniFile.store) (c : IniFile.t) :
  IniFile.Parse filePath file = Ok (h, c) →
  Forall (λ s, Section_.OptionNames s = []) h.
Proof.
  unfold IniFile.Parse. destruct file as [text|]; [|done].
  destruct (ScanLines text) as [lines err].
  assert (∀ st, Forall (λ s, Section_.orderedOptions s = []) st.1.1 →
            Forall (λ s, Section_.orderedOptions s = [])
              (foldl IniFile.Parse_line st lines).1.1) as Hfold.
  { induction lines as [|line lines IH]; intros st Hst; [done|].
    cbn. apply IH. by apply Parse_line_registers_no_option. }
  specialize (Hfold (IniFile.AddSection [] (IniFile.NewIniFile filePath) "global")).
  destruct (foldl _ _ lines) as [[h' c'] active].
  destruct err; [done|]. intros [= <- <-]. apply Hfold.
  cbn. by apply Forall_singleton.
Qed.

(** C1, on the file [foo=bar]: [Parse] stores the option in the map of the
    section [global], [String] returns the empty text, and the
    configuration parsed from that text has the section [global] without
    the option. *)
Theorem reparse_loses_options :
  ∃ h c h' c',
    IniFile.Parse "f" (Some ("foo=bar" +:+ nl)) = Ok (h, c) ∧
    IniFile.StringValue h c "global" "foo" = Ok "bar" ∧
    IniFile.String h c = "" ∧
    IniFile.Parse "f" (Some (IniFile.String h c)) = Ok (h', c') ∧
    IniFile.orderedSections c' = IniFile.orderedSections c ∧
    IniFile.Sections c' "global" = Ok [0] ∧
    Section_.Exists (IniFile.deref h 0) "foo" = true ∧
    Section_.Exists (IniFile.deref h' 0) "foo" = false ∧
    IniFile.StringValue h' c' "global" "foo" = Ok "".
Proof. do 4 eexists. vm_compute. repeat split; reflexivity. Qed.

(** C2 (as the claim states it, refuted): the text [String] returns for the
    parsed scenario is the header of the second section alone. *)
Lemma four_lines_String :
  ∃ h c,
    IniFile.Parse "f" (Some four_lines) = Ok (h, c) ∧
    IniFile.String h c = ("[section]" +:+ nl) ∧
    IniFile.String h c
      ≠ ("foo = bar" +:+ nl +:+ "[section]" +:+ nl +:+ "baz = qux" +:+ nl).
Proof. do 2 eexists. vm_compute. repeat split; done. Qed.

(** C2 (amended): parsing the four lines [foo=bar], [[section]],
    [; a comment], [baz = qux] gives the sections [global] and [section],
    the first with the option [foo] of value [bar] and nothing else, the
    second with the option [baz] of value [qux] and nothing else: the
    comment line is dropped.  A section renders an option of its order
    sequence as name, [=], value, with no space around the [=]: with these
    options registered through [Add], [String] returns
    [foo=bar], [[section]], [baz=qux], each followed by a newline. *)
Theorem four_lines_parsed :
  ∃ h c,
    IniFile.Parse "f" (Some four_lines) = Ok (h, c) ∧
    IniFile.Sections c "" = Ok [0; 1] ∧
    IniFile.Section c "global" = Ok 0 ∧
    IniFile.Section c "section" = Ok 1 ∧
    Section_.Options (IniFile.deref h 0) = {[ "foo" := "bar" ]} ∧
    Section_.Options (IniFile.deref h 1) = {[ "baz" := "qux" ]} ∧
    IniFile.StringValue h c "global" "foo" = Ok "bar" ∧
    IniFile.StringValue h c "section" "baz" = Ok "qux" ∧
    IniFile.String two_sections_added.1 two_sections_added.2
      = ("foo=bar" +:+ nl +:+ "[section]" +:+ nl +:+ "baz=qux" +:+ nl).
Proof. do 2 eexists. vm_compute. repeat split; reflexivity. Qed.

(** * Further properties of the code *)

(** ** The removal loop *)

Lemma Section_Delete_loop_eq (option : string) (idx : list nat) (s : slice) :
  Section_.Delete_loop option idx s
    = remove_matching (λ opt, bool_decide (opt = option)) idx s.
Proof.
  revert s. induction idx as [|i idx IH]; intros s; cbn; [done|].
  case_bool_decide; [|done]. destruct (remove_at i s); [apply IH|done].
Qed.

Lemma IniFile_Delete_loop_eq (Compile : regexp) (regex : string) (re : string → bool)
    (idx : list nat) (s : slice) :
  Compile regex = Some re →
  IniFile.Delete_loop Compile regex idx s
    = match remove_matching re idx s with
      | Return s' => Return (s', None)
      | Panic => Panic
      end.
Proof.
  intros Hre. revert s. induction idx as [|i idx IH]; intros s; cbn; [done|].
  rewrite (MatchString_compiled _ _ _ re) by done.
  destruct (re _); [|apply IH]. destruct (remove_at i s); [apply IH|done].
Qed.

Lemma remove_matching_app (P : string → bool) (idx1 idx2 : list nat) (s : slice) :
  remove_matching P (idx1 ++ idx2) s
    = match remove_matching P idx1 s with
      | Return s' => remove_matching P idx2 s'
      | Panic => Panic
      end.
Proof.
  revert s. induction idx1 as [|i idx1 IH]; intros s; cbn; [done|].
  destruct (P _); [|apply IH]. destruct (remove_at i s); [apply IH|done].
Qed.

(** Where no visited cell passes the test, the slice stays as it is. *)
Lemma remove_matching_none (P : string → bool) (idx : list nat) (s : slice) :
  (∀ i, i ∈ idx → ∃ x, cells s !! i = Some x ∧ P x = false) →
  remove_matching P idx s = Return s.
Proof.
  induction idx as [|i idx IH]; intros Hno; cbn; [done|].
  destruct (Hno i) as (x & Hx & HP); [apply elem_of_cons; by left|].
  rewrite Hx. cbn [default from_option id]. rewrite HP.
  apply IH. intros j Hj. apply Hno. apply elem_of_cons. by right.
Qed.

(** Where one cell passes the test, the loop removes it: the cells it
    visits afterwards are those that followed, moved down by one, and the
    last cell a second time. *)
Lemma remove_matching_one (P : string → bool) (pre post : list string) (x : string) :
  Forall (λ y, P y = false) pre →
  P x = true →
  Forall (λ y, P y = false) post →
  ∃ s, remove_matching P (seq 0 (length (pre ++ x :: post)))
         (mkslice (pre ++ x :: post) (length (pre ++ x :: post))) = Return s ∧
       contents s = pre ++ post.
Proof.
  intros Hpre Hx Hpost.
  rewrite length_app. cbn [length].
  replace (length pre + S (length post)) with (length pre + (1 + length post)) by lia.
  rewrite seq_app, remove_matching_app.
  rewrite remove_matching_none; last first.
  { intros i Hi%elem_of_seq. cbn.
    destruct (lookup_lt_is_Some_2 pre i) as [y Hy]; [lia|].
    exists y. rewrite lookup_app_l by lia. split; [done|].
    exact (Forall_lookup_1 (λ y, P y = false) pre i y Hpre Hy). }
  change (seq (0 + length pre) (1 + length post))
    with (length pre :: seq (S (length pre)) (length post)).
  cbn [remove_matching cells len].
  rewrite (list_lookup_middle pre post x (length pre)) by done. cbn [default from_option id].
  rewrite Hx. unfold remove_at. cbn [cells len].
  rewrite bool_decide_eq_true_2 by lia.
  rewrite take_app_length.
  assert (drop (length pre + 1) (pre ++ x :: post) = post) as ->.
  { rewrite drop_app_ge by lia.
    by replace (length pre + 1 - length pre) with 1 by lia. }
  assert (drop (length pre + (1 + length post) - 1) (pre ++ x :: post)
          = drop (length post) (x :: post)) as ->.
  { rewrite drop_app_ge by lia. f_equal. lia. }
  rewrite (take_ge post) by lia.
  set (tail := drop (length post) (x :: post)).
  assert (post ≠ [] → Forall (λ y, P y = false) tail) as Htail.
  { intros Hne. destruct post as [|p post]; [done|]. subst tail. cbn [length drop].
    by apply Forall_drop. }
  assert (length tail = 1) as Hlen.
  { subst tail. rewrite length_drop. cbn. lia. }
  eexists. split.
  - apply remove_matching_none. intros i Hi%elem_of_seq. cbn [cells].
    assert (post ≠ []) as Hne by (intros ->; cbn in Hi; lia).
    destruct (lookup_lt_is_Some_2 (post ++ tail) (i - length pre)) as [y Hy].
    { rewrite length_app. lia. }
    exists y. rewrite lookup_app_r by lia. split; [done|].
    apply (Forall_lookup_1 (λ y, P y = false) (post ++ tail) (i - length pre) y); [|done].
    apply Forall_app. auto.
  - unfold contents. cbn [cells len].
    rewrite app_assoc. rewrite take_app_length'; [done|]. rewrite length_app. lia.
Qed.

(** Where every cell passes the test and there are at least two, the loop
    runs into the slice expression that panics: each removal shortens the
    slice by one while the index goes up by one. *)
Lemma remove_matching_all (P : string → bool) (n : nat) :
  2 ≤ n →
  ∀ d k s,
    n - k = d → k < n →
    length (cells s) = n → len s + k = n →
    Forall (λ y, P y = true) (cells s) →
    remove_matching P (seq k (n - k)) s = Panic.
Proof.
  intros Hn. induction d as [d IH] using lt_wf_ind. intros k s Hd Hk Hcells Hlen Hall.
  replace (n - k) with (S (n - S k)) by lia. cbn [seq remove_matching].
  destruct (lookup_lt_is_Some_2 (cells s) k) as [y Hy]; [lia|].
  rewrite Hy. cbn [default from_option id].
  rewrite (Forall_lookup_1 (λ y, P y = true) (cells s) k y Hall Hy).
  unfold remove_at. case_bool_decide as Hle; [|done].
  apply (IH (n - S k)); cbn [cells len]; try lia.
  - rewrite !length_app, length_take, length_take, !length_drop. lia.
  - apply Forall_app. split; [by apply Forall_take|].
    apply Forall_app. split; [by apply Forall_take, Forall_drop|by apply Forall_drop].
Qed.

(** ** Section: deleting an option *)

Lemma filter_ne_id (k : string) (l : list string) :
  k ∉ l → filter (λ x, x ≠ k) l = l.
Proof.
  induction l as [|x l IH]; intros Hk; [done|].
  apply not_elem_of_cons in Hk as [Hne Hk].
  rewrite filter_cons_True by done. by rewrite IH.
Qed.

Lemma Forall_not_test (k : string) (l : list string) :
  k ∉ l → Forall (λ y, bool_decide (y = k) = false) l.
Proof.
  intros Hk. apply Forall_forall. intros y Hy.
  apply bool_decide_eq_false_2. intros ->. by apply Hk.
Qed.

(** On an order sequence without repetition the loop of [Delete] ends and
    removes the option, which leaves the other names in their order. *)
Lemma Section_Delete_NoDup (s : Section_.t) (k : string) :
  NoDup (Section_.orderedOptions s) →
  Section_.Delete s k
    = Return (Section_.mk (Section_.name s) (delete k (Section_.options s))
                (filter (λ x, x ≠ k) (Section_.orderedOptions s)),
              Section_.ValueOf s k).
Proof.
  intros Hnodup. unfold Section_.Delete, Section_.ValueOf.
  rewrite Section_Delete_loop_eq.
  destruct (decide (k ∈ Section_.orderedOptions s)) as [Hin|Hnotin].
  - apply list_elem_of_split in Hin as (pre & post & Hsplit).
    rewrite Hsplit in *.
    apply NoDup_app in Hnodup as (_ & Hpre & [Hpost _]%NoDup_cons).
    assert (k ∉ pre) as Hkpre.
    { intros Hk. apply (Hpre k Hk). apply elem_of_cons. by left. }
    destruct (remove_matching_one (λ opt, bool_decide (opt = k)) pre post k)
      as (sl & -> & ->).
    { by apply Forall_not_test. }
    { by apply bool_decide_eq_true_2. }
    { by apply Forall_not_test. }
    rewrite filter_app, filter_cons_False by (by intros H).
    by rewrite !filter_ne_id.
  - rewrite remove_matching_none.
    + by rewrite contents_whole, filter_ne_id.
    + intros i Hi%elem_of_seq. cbn.
      destruct (lookup_lt_is_Some_2 (Section_.orderedOptions s) i) as [y Hy]; [lia|].
      exists y. split; [done|]. apply bool_decide_eq_false_2. intros ->.
      apply Hnotin. by eapply list_elem_of_lookup_2.
Qed.

Lemma section_inv_new (name : string) : section_inv (Section_.new name).
Proof. split; [apply NoDup_nil_2|]. by intros k Hk%elem_of_nil. Qed.

Lemma section_inv_Add (s : Section_.t) (k v : string) :
  section_inv s → section_inv (Section_.Add s k v).1.
Proof.
  intros [Hnodup Hdom]. unfold Section_.Add, section_inv. cbn.
  destruct (Section_.options s !! k) as [old|] eqn:Hk.
  - split; [done|]. intros k' Hk'. apply lookup_insert_is_Some'. right. by apply Hdom.
  - split.
    + apply NoDup_app. split; [done|]. split; [|apply NoDup_singleton].
      intros k' Hk' ->%list_elem_of_singleton. apply Hdom in Hk' as [? Hk'].
      by rewrite Hk in Hk'.
    + intros k' [Hk'| ->%list_elem_of_singleton]%elem_of_app;
        apply lookup_insert_is_Some'; [right; by apply Hdom|by left].
Qed.

Lemma section_inv_stored (s : Section_.t) (k v : string) :
  section_inv s →
  section_inv (Section_.mk (Section_.name s) (<[k := v]> (Section_.options s))
                 (Section_.orderedOptions s)).
Proof.
  intros [Hnodup Hdom]. split; [done|]. cbn.
  intros k' Hk'. apply lookup_insert_is_Some'. right. by apply Hdom.
Qed.

Lemma section_inv_AddOption (s : Section_.t) (line : string) :
  section_inv s → section_inv (Section_.AddOption s line).
Proof.
  intros Hinv. unfold Section_.AddOption. destruct (Section_.parseOption line).
  case_bool_decide; [|done]. by apply section_inv_stored.
Qed.

(** X1: on a section whose order sequence has no repetition, [Delete]
    returns: the option is gone from the map (it no longer exists, its
    value reads as the empty string) and from the order sequence, where
    the other names keep their order; every other option keeps its value;
    the result is the value the option had, the empty string when it was
    absent. *)
Theorem Section_Delete_removes (s : Section_.t) (k : string) :
  NoDup (Section_.OptionNames s) →
  ∃ s',
    Section_.Delete s k = Return (s', Section_.ValueOf s k) ∧
    Section_.Exists s' k = false ∧
    Section_.ValueOf s' k = "" ∧
    Section_.OptionNames s' = filter (λ x, x ≠ k) (Section_.OptionNames s) ∧
    (k ∉ Section_.OptionNames s') ∧
    Section_.Name s' = Section_.Name s ∧
    ∀ k', k' ≠ k →
      Section_.Exists s' k' = Section_.Exists s k' ∧
      Section_.ValueOf s' k' = Section_.ValueOf s k'.
Proof.
  intros Hnodup. eexists. split; [by apply Section_Delete_NoDup|].
  unfold Section_.Exists, Section_.ValueOf, Section_.OptionNames, Section_.Name. cbn.
  rewrite lookup_delete_eq. cbn.
  split; [done|]. split; [done|]. split; [done|].
  split; [by intros [? _]%list_elem_of_filter|]. split; [done|].
  intros k' Hne. by rewrite lookup_delete_ne.
Qed.

(** X1 on a section with three options. *)
Lemma Section_Delete_removes_abc :
  ∃ s',
    Section_.Delete (add_all (Section_.new "s") [("a", "1"); ("b", "2"); ("c", "3")]) "b"
      = Return (s', Section_.ValueOf
                      (add_all (Section_.new "s") [("a", "1"); ("b", "2"); ("c", "3")]) "b") ∧
    Section_.Exists s' "b" = false ∧
    Section_.ValueOf s' "b" = "" ∧
    Section_.OptionNames s'
      = filter (λ x, x ≠ "b")
          (Section_.OptionNames
             (add_all (Section_.new "s") [("a", "1"); ("b", "2"); ("c", "3")])) ∧
    ("b" ∉ Section_.OptionNames s') ∧
    Section_.Name s'
      = Section_.Name (add_all (Section_.new "s") [("a", "1"); ("b", "2"); ("c", "3")]) ∧
    ∀ k', k' ≠ "b" →
      Section_.Exists s' k'
        = Section_.Exists
            (add_all (Section_.new "s") [("a", "1"); ("b", "2"); ("c", "3")]) k' ∧
      Section_.ValueOf s' k'
        = Section_.ValueOf
            (add_all (Section_.new "s") [("a", "1"); ("b", "2"); ("c", "3")]) k'.
Proof.
  apply Section_Delete_removes.
  apply (bool_decide_unpack _). by vm_compute.
Defined.

Lemma section_inv_Delete (s : Section_.t) (k : string) :
  section_inv s →
  section_inv (Section_.mk (Section_.name s) (delete k (Section_.options s))
                 (filter (λ x, x ≠ k) (Section_.orderedOptions s))).
Proof.
  intros [Hnodup Hdom]. split; cbn.
  - by apply NoDup_filter.
  - intros k' [Hne Hk']%list_elem_of_filter. rewrite lookup_delete_ne by done.
    by apply Hdom.
Qed.

Lemma section_inv_absent (s : Section_.t) (k : string) :
  section_inv s → Section_.options s !! k = None → k ∉ Section_.orderedOptions s.
Proof. intros [_ Hdom] Hk Hin. apply Hdom in Hin as [? Hin]. by rewrite Hk in Hin. Qed.

(** X2: the order sequence of a section never holds a name twice, and its
    names all have a value in the option map: this holds of a new section
    and [Add], [SetValueFor], [AddOption] and [Delete] keep it; in
    particular [Delete] returns on every such section. *)
Theorem section_inv_kept (s : Section_.t) (name k v line : string) :
  section_inv s →
  section_inv (Section_.new name) ∧
  section_inv (Section_.Add s k v).1 ∧
  section_inv (Section_.SetValueFor s k v).1 ∧
  section_inv (Section_.AddOption s line) ∧
  ∃ s' old, Section_.Delete s k = Return (s', old) ∧ section_inv s'.
Proof.
  intros Hinv. split; [apply section_inv_new|].
  split; [by apply section_inv_Add|].
  split; [by apply section_inv_stored|].
  split; [by apply section_inv_AddOption|].
  do 2 eexists. split; [apply Section_Delete_NoDup, Hinv|].
  by apply section_inv_Delete.
Qed.

(** X2 on a new section. *)
Lemma section_inv_kept_new :
  section_inv (Section_.new "s") ∧
  section_inv (Section_.Add (Section_.new "s") "k" "v").1 ∧
  section_inv (Section_.SetValueFor (Section_.new "s") "k" "v").1 ∧
  section_inv (Section_.AddOption (Section_.new "s") "k=v") ∧
  ∃ s' old, Section_.Delete (Section_.new "s") "k" = Return (s', old) ∧ section_inv s'.
Proof. apply section_inv_kept. apply section_inv_new. Defined.

(** X3: on a section that keeps its invariant, adding an absent option
    and deleting it again gives back the section as it was, and [Delete]
    returns the value that was added. *)
Theorem Delete_after_Add (s : Section_.t) (k v : string) :
  section_inv s →
  Section_.Exists s k = false →
  Section_.Delete (Section_.Add s k v).1 k = Return (s, v).
Proof.
  intros Hinv Hk. apply bool_decide_eq_false_1 in Hk.
  assert (Section_.options s !! k = None) as Hnone.
  { destruct (Section_.options s !! k); [|done]. by destruct Hk. }
  rewrite Section_Delete_NoDup by apply (section_inv_Add s k v Hinv).
  pose proof (section_inv_absent s k Hinv Hnone) as Hnotin.
  unfold Section_.Add, Section_.ValueOf. rewrite Hnone. cbn.
  rewrite lookup_insert_eq, delete_insert_id by done. cbn.
  rewrite filter_app, filter_ne_id, filter_cons_False by (done || by intros H).
  rewrite filter_nil, app_nil_r. by destruct s.
Qed.

(** X3 on a section with one option. *)
Lemma Delete_after_Add_run :
  Section_.Delete (Section_.Add (add_all (Section_.new "s") [("a", "1")]) "k" "v").1 "k"
    = Return (add_all (Section_.new "s") [("a", "1")], "v").
Proof.
  apply Delete_after_Add.
  - apply section_inv_Add, section_inv_new.
  - reflexivity.
Defined.

(** X4: on a section that keeps its invariant, deleting an option and
    adding it again moves its name to the end of the order sequence; the
    other names keep their order, and the option has the new value. *)
Theorem Add_after_Delete (s : Section_.t) (k v : string) :
  section_inv s →
  ∃ s' old,
    Section_.Delete s k = Return (s', old) ∧
    Section_.OptionNames (Section_.Add s' k v).1
      = filter (λ x, x ≠ k) (Section_.OptionNames s) ++ [k] ∧
    Section_.ValueOf (Section_.Add s' k v).1 k = v ∧
    (Section_.Add s' k v).2 = "".
Proof.
  intros Hinv. do 2 eexists. split; [apply Section_Delete_NoDup, Hinv|].
  unfold Section_.Add, Section_.ValueOf, Section_.OptionNames. cbn.
  by rewrite lookup_delete_eq, lookup_insert_eq.
Qed.

(** X4 on a section with three options. *)
Lemma Add_after_Delete_abc :
  ∃ s' old,
    Section_.Delete (add_all (Section_.new "s") [("a", "1"); ("b", "2"); ("c", "3")]) "a"
      = Return (s', old) ∧
    Section_.OptionNames (Section_.Add s' "a" "9").1
      = filter (λ x, x ≠ "a")
          (Section_.OptionNames
             (add_all (Section_.new "s") [("a", "1"); ("b", "2"); ("c", "3")])) ++ ["a"] ∧
    Section_.ValueOf (Section_.Add s' "a" "9").1 "a" = "9" ∧
    (Section_.Add s' "a" "9").2 = "".
Proof.
  apply Add_after_Delete.
  do 3 apply section_inv_Add. apply section_inv_new.
Defined.

(** X5: once [SetValueFor] or [AddOption] has stored an option, [Add] with
    its name finds it present and does not append the name: the option
    stays out of [OptionNames], whatever value [Add] gives it. *)
Theorem Add_after_store (s : Section_.t) (k v w line : string) :
  (Section_.parseOption line).2 ≠ "" →
  Section_.OptionNames (Section_.Add (Section_.SetValueFor s k v).1 k w).1
    = Section_.OptionNames s ∧
  Section_.OptionNames
    (Section_.Add (Section_.AddOption s line) (Section_.parseOption line).1 w).1
    = Section_.OptionNames s ∧
  Section_.ValueOf
    (Section_.Add (Section_.AddOption s line) (Section_.parseOption line).1 w).1
    (Section_.parseOption line).1 = w.
Proof.
  intros Hvalue. unfold Section_.Add, Section_.SetValueFor, Section_.AddOption,
    Section_.OptionNames, Section_.ValueOf.
  destruct (Section_.parseOption line) as [key value]. cbn in *.
  rewrite bool_decide_eq_true_2 by done. cbn.
  by rewrite !lookup_insert_eq.
Qed.

(** X5 on a new section and the line [foo=bar]. *)
Lemma Add_after_store_foo :
  Section_.OptionNames
    (Section_.Add (Section_.SetValueFor (Section_.new "s") "k" "v").1 "k" "w").1
    = Section_.OptionNames (Section_.new "s") ∧
  Section_.OptionNames
    (Section_.Add (Section_.AddOption (Section_.new "s") "foo=bar")
       (Section_.parseOption "foo=bar").1 "w").1
    = Section_.OptionNames (Section_.new "s") ∧
  Section_.ValueOf
    (Section_.Add (Section_.AddOption (Section_.new "s") "foo=bar")
       (Section_.parseOption "foo=bar").1 "w").1
    (Section_.parseOption "foo=bar").1 = "w".
Proof. apply Add_after_store. by vm_compute. Defined.

(** ** Section: the text of a section filled with [Add] *)

Lemma Join_no_separator (parts : list string) :
  strings.Join parts "" = concat_strings parts.
Proof.
  induction parts as [|e parts IH]; [done|].
  destruct parts as [|e' parts]; cbn [strings.Join concat_strings] in *.
  - by rewrite append_nil_r.
  - by rewrite append_nil_l, IH.
Qed.

Lemma concat_strings_app (l k : list string) :
  concat_strings (l ++ k) = concat_strings l +:+ concat_strings k.
Proof.
  induction l as [|x l IH]; cbn [concat_strings app]; [done|].
  by rewrite IH, append_assoc.
Qed.

(** [Add] of an option that is neither in the map nor in the order
    sequence adds one line at the end of the text. *)
Lemma String_Add_fresh (s : Section_.t) (k v : string) :
  Section_.options s !! k = None →
  k ∉ Section_.orderedOptions s →
  Section_.String (Section_.Add s k v).1 = Section_.String s +:+ option_line (k, v).
Proof.
  intros Hnone Hnotin. unfold Section_.String, Section_.Add. rewrite Hnone. cbn.
  rewrite !Join_no_separator, foldl_snoc.
  rewrite (foldl_String_step_agree _ s); last first.
  { intros opt Hopt. cbn. rewrite lookup_insert_ne; [done|]. by intros ->. }
  unfold Section_.String_step at 1. cbn. rewrite lookup_insert_eq. cbn.
  unfold option_line. cbn.
  destruct (bool_decide (v ≠ "")); rewrite concat_strings_app; cbn [concat_strings];
    by rewrite ?append_nil_r.
Qed.

Lemma add_all_snoc (s : Section_.t) (kvs : list (string * string)) (kv : string * string) :
  add_all s (kvs ++ [kv]) = (Section_.Add (add_all s kvs) kv.1 kv.2).1.
Proof. unfold add_all. by rewrite foldl_snoc. Qed.

Lemma section_inv_add_all (s : Section_.t) (kvs : list (string * string)) :
  section_inv s → section_inv (add_all s kvs).
Proof.
  revert s. induction kvs as [|kv kvs IH]; intros s Hinv; [done|].
  apply IH. by apply section_inv_Add.
Qed.

Lemma add_all_lookup_other (s : Section_.t) (kvs : list (string * string)) (k : string) :
  k ∉ kvs.*1 → Section_.options (add_all s kvs) !! k = Section_.options s !! k.
Proof.
  revert s. induction kvs as [|kv kvs IH]; intros s Hk; [done|].
  rewrite fmap_cons in Hk. apply not_elem_of_cons in Hk as [Hne Hk].
  cbn. rewrite IH by done. cbn. by rewrite lookup_insert_ne.
Qed.

(** X6: a section that [Add] fills with options of distinct names lists
    the names in the order of the calls, and its text is its header
    followed by one line per option in that order: [name=value], or the
    name alone when the value is empty.  No header is written for the
    section [global]. *)
Theorem String_add_all (name : string) (kvs : list (string * string)) :
  NoDup kvs.*1 →
  Section_.OptionNames (add_all (Section_.new name) kvs) = kvs.*1 ∧
  Section_.String (add_all (Section_.new name) kvs)
    = header name +:+ concat_strings (option_line <$> kvs).
Proof.
  induction kvs as [|kv kvs IH] using rev_ind; intros Hnodup.
  { split; [done|]. unfold Section_.String, header. cbn. by rewrite append_nil_r. }
  rewrite fmap_app in *. apply NoDup_app in Hnodup as (Hnodup & Hfresh & _).
  destruct (IH Hnodup) as [Hnames Htext].
  assert (kv.1 ∉ kvs.*1) as Hkv.
  { intros Hin. apply (Hfresh _ Hin). cbn. apply elem_of_cons. by left. }
  assert (Section_.options (add_all (Section_.new name) kvs) !! kv.1 = None) as Hnone.
  { by rewrite add_all_lookup_other. }
  rewrite add_all_snoc. split.
  - unfold Section_.OptionNames, Section_.Add in *. rewrite Hnone. cbn. by rewrite Hnames.
  - rewrite String_Add_fresh; [|done|by rewrite <- Hnames in Hkv].
    rewrite Htext, ?fmap_app, concat_strings_app, append_assoc.
    cbn [concat_strings fmap list_fmap].
    destruct kv. by rewrite append_nil_r.
Qed.

(** X6 on the section [section] with the options [baz] and [flag]. *)
Lemma String_add_all_section :
  Section_.OptionNames (add_all (Section_.new "section") [("baz", "qux"); ("flag", "")])
    = [("baz", "qux"); ("flag", "")].*1 ∧
  Section_.String (add_all (Section_.new "section") [("baz", "qux"); ("flag", "")])
    = header "section" +:+ concat_strings (option_line <$> [("baz", "qux"); ("flag", "")]).
Proof.
  apply String_add_all.
  apply (bool_decide_unpack _). by vm_compute.
Defined.

Example String_add_all_text :
  Section_.String (add_all (Section_.new "section") [("baz", "qux"); ("flag", "")])
    = ("[section]" +:+ nl +:+ "baz=qux" +:+ nl +:+ "flag" +:+ nl).
Proof. reflexivity. Qed.

(** ** Parse: the configuration it builds *)

(** The scanning loop adds a section for a line that starts with [[] and
    hands every other line to [AddOption] of the active section. *)
Lemma Parse_line_cases (h : IniFile.store) (c : IniFile.t) (active : ptr) (line : string) :
  IniFile.Parse_line (h, c, active) line
    = if IniFile.isSection line then IniFile.AddSection h c (strings.Trim line " []")
      else (alter (λ s, Section_.AddOption s line) active h, c, active).
Proof.
  unfold IniFile.Parse_line, IniFile.isSection.
  destruct line as [|ch line]; [done|]. cbn.
  destruct (Ascii.eqb_spec ch "[") as [->|_]; [done|]. cbn.
  by destruct (_ && _).
Qed.

Lemma AddSection_NoDup (h : IniFile.store) (c : IniFile.t) (name : string) :
  registry_inv c → NoDup (IniFile.orderedSections c) →
  NoDup (IniFile.orderedSections (IniFile.AddSection h c name).1.2).
Proof.
  intros [Hord _] Hnodup. unfold IniFile.AddSection.
  destruct (IniFile.sections c !! name) as [lst|] eqn:Hlk; cbn; [done|].
  apply NoDup_app. split; [done|]. split; [|apply NoDup_singleton].
  intros n Hn ->%list_elem_of_singleton. apply (Hord name Hn).
  unfold instances. by rewrite Hlk.
Qed.

Lemma AddSection_keeps_first (h : IniFile.store) (c : IniFile.t) (name n : string)
    (s : ptr) (rest : list ptr) :
  IniFile.sections c !! n = Some (s :: rest) →
  ∃ rest', IniFile.sections (IniFile.AddSection h c name).1.2 !! n = Some (s :: rest').
Proof.
  intros Hn. unfold IniFile.AddSection.
  destruct (decide (name = n)) as [->|Hne].
  - rewrite Hn. cbn. rewrite lookup_insert_eq. by eexists.
  - destruct (IniFile.sections c !! name); cbn; rewrite lookup_insert_ne by done; by eexists.
Qed.

Lemma AddSection_keeps_head (h : IniFile.store) (c : IniFile.t) (name n : string)
    (names : list string) :
  IniFile.orderedSections c = n :: names →
  ∃ names', IniFile.orderedSections (IniFile.AddSection h c name).1.2 = n :: names'.
Proof.
  intros Hn. unfold IniFile.AddSection.
  destruct (IniFile.sections c !! name); cbn; rewrite Hn; by eexists.
Qed.

Lemma AddSection_filePath (h : IniFile.store) (c : IniFile.t) (name : string) :
  IniFile.filePath (IniFile.AddSection h c name).1.2 = IniFile.filePath c.
Proof. unfold IniFile.AddSection. by destruct (IniFile.sections c !! name). Qed.

(** What the scanning loop keeps true of the configuration it builds. *)
Lemma Parse_invariants (filePath : string) (file : option string)
    (h : IniFile.store) (c : IniFile.t) :
  IniFile.Parse filePath file = Ok (h, c) →
  registry_inv c ∧
  store_ok h c ∧
  NoDup (IniFile.orderedSections c) ∧
  IniFile.filePath c = filePath ∧
  (∃ names, IniFile.orderedSections c = "global" :: names) ∧
  (∃ rest, IniFile.sections c !! "global" = Some (0 :: rest)).
Proof.
  unfold IniFile.Parse. destruct file as [text|]; [|done].
  destruct (ScanLines text) as [lines err].
  set (ok := λ st : IniFile.store * IniFile.t * ptr,
         registry_inv st.1.2 ∧ store_ok st.1.1 st.1.2 ∧
         NoDup (IniFile.orderedSections st.1.2) ∧
         IniFile.filePath st.1.2 = filePath ∧
         (∃ names, IniFile.orderedSections st.1.2 = "global" :: names) ∧
         (∃ rest, IniFile.sections st.1.2 !! "global" = Some (0 :: rest))).
  assert (∀ st, ok st → ok (foldl IniFile.Parse_line st lines)) as Hfold.
  { induction lines as [|line lines IH]; intros st Hst; [done|].
    cbn. apply IH. destruct st as [[h0 c0] active].
    destruct Hst as (Hinv & Hstore & Hnodup & Hpath & [names Hnames] & [rest Hrest]).
    cbn [fst snd] in *.
    rewrite Parse_line_cases. unfold ok. destruct (IniFile.isSection line).
    - split; [by apply registry_inv_AddSection|].
      split; [by apply store_ok_AddSection|].
      split; [by apply AddSection_NoDup|].
      split; [by rewrite AddSection_filePath|].
      split; [by eapply AddSection_keeps_head|by eapply AddSection_keeps_first].
    - cbn [fst snd]. split; [done|].
      split; [apply store_ok_alter; [intros s; apply AddOption_name|done]|].
      split; [done|]. split; [done|]. split; by eexists. }
  specialize (Hfold (IniFile.AddSection [] (IniFile.NewIniFile filePath) "global")).
  destruct (foldl _ _ lines) as [[h' c'] active].
  destruct err; [done|]. intros [= <- <-]. apply Hfold.
  split; [apply registry_inv_AddSection, registry_inv_NewIniFile|].
  split; [apply store_ok_AddSection, store_ok_NewIniFile|].
  split; [apply NoDup_singleton|]. split; [done|].
  split; [by exists []|]. by exists [].
Qed.



Lemma AddSection_instances (h : IniFile.store) (c : IniFile.t) (name n : string) :
  instances (IniFile.AddSection h c name).1.2 n
    = if bool_decide (name = n) then instances c n ++ [length h] else instances c n.
Proof.
  unfold IniFile.AddSection, instances. case_bool_decide as Hn.
  - subst n. destruct (IniFile.sections c !! name); cbn; by rewrite lookup_insert_eq.
  - destruct (IniFile.sections c !! name); cbn; by rewrite lookup_insert_ne.
Qed.

Lemma Parse_lines_instances (lines : list string) (st : IniFile.store * IniFile.t * ptr)
    (name : string) :
  length (instances (foldl IniFile.Parse_line st lines).1.2 name)
    = length (instances st.1.2 name)
      + length (filter (λ line, is_header line = true ∧ strings.Trim line " []" = name) lines).
Proof.
  revert st. induction lines as [|line lines IH]; intros st; [cbn; lia|].
  cbn [foldl]. rewrite IH. destruct st as [[h c] active]. rewrite Parse_line_cases.
  unfold is_header. destruct (IniFile.isSection line) eqn:Hsec.
  - rewrite AddSection_instances. case_bool_decide as Hname.
    + rewrite filter_cons_True by done. rewrite length_app. cbn. lia.
    + rewrite filter_cons_False by (intros H; apply Hname, H). cbn. lia.
  - rewrite filter_cons_False; [done|]. intros [H _]. by rewrite Hsec in H.
Qed.

(** X8: in the configuration [Parse] returns, the number of sections
    registered under a name is the number of header lines of the file whose
    text, trimmed of spaces and square brackets, is that name; one more for
    [global], the section created before the first line.  A header that is
    repeated gives as many sections. *)
Theorem Parse_counts_headers (filePath text name : string)
    (h : IniFile.store) (c : IniFile.t) :
  IniFile.Parse filePath (Some text) = Ok (h, c) →
  length (instances c name)
    = (if bool_decide (name = "global") then 1 else 0)
      + length (filter (λ line, is_header line = true ∧ strings.Trim line " []" = name)
                  (ScanLines text).1).
Proof.
  unfold IniFile.Parse. destruct (ScanLines text) as [lines err]. cbn [fst].
  pose proof (Parse_lines_instances lines
    (IniFile.AddSection [] (IniFile.NewIniFile filePath) "global") name) as Hcount.
  destruct (foldl _ _ lines) as [[h' c'] active].
  destruct err; [done|]. intros [= <- <-]. cbn [fst snd] in Hcount.
  rewrite Hcount, AddSection_instances. f_equal.
  unfold instances. cbn. rewrite lookup_empty. cbn.
  rewrite (bool_decide_ext ("global" = name) (name = "global")) by done.
  by case_bool_decide.
Qed.

(** X8 on a file with two blocks [[x]]. *)
Lemma Parse_counts_headers_twice :
  ∃ h c,
    IniFile.Parse "f" (Some ("[x]" +:+ nl +:+ "a=1" +:+ nl +:+ "[x]" +:+ nl +:+ "b=2" +:+ nl))
      = Ok (h, c) ∧
    length (instances c "x")
      = (if bool_decide ("x" = "global") then 1 else 0)
        + length (filter (λ line, is_header line = true ∧ strings.Trim line " []" = "x")
                    (ScanLines ("[x]" +:+ nl +:+ "a=1" +:+ nl +:+ "[x]" +:+ nl
                                +:+ "b=2" +:+ nl)).1).
Proof.
  destruct (IniFile.Parse "f" _) as [[h c]|err] eqn:Hparse; [|by vm_compute in Hparse].
  exists h, c. split; [done|]. exact (Parse_counts_headers "f" _ "x" h c Hparse).
Defined.

Example Parse_two_blocks :
  ∃ h c,
    IniFile.Parse "f" (Some ("[x]" +:+ nl +:+ "a=1" +:+ nl +:+ "[x]" +:+ nl +:+ "b=2" +:+ nl))
      = Ok (h, c) ∧
    IniFile.Sections c "x" = Ok [1; 2] ∧
    Section_.Options (IniFile.deref h 1) = {[ "a" := "1" ]} ∧
    Section_.Options (IniFile.deref h 2) = {[ "b" := "2" ]}.
Proof. do 2 eexists. vm_compute. repeat split; reflexivity. Qed.

(** ** Parse: the lines it drops *)

(** A line without [=] and [:] gives [AddOption] the empty value. *)
Lemma AddOption_no_delimiter (s : Section_.t) (line : string) :
  strings.contains line "=" = false →
  strings.contains line ":" = false →
  Section_.AddOption s line = s.
Proof.
  intros Heq%cut_None Hco%cut_None. unfold Section_.AddOption.
  rewrite parseOption_words_eq. unfold parseOption_words. by rewrite Heq, Hco.
Qed.

Lemma Parse_line_dropped (st : IniFile.store * IniFile.t * ptr) (line : string) :
  is_dropped line = true → IniFile.Parse_line st line = st.
Proof.
  unfold is_dropped. intros [[Hsec Heq]%andb_prop Hco]%andb_prop.
  apply negb_true_iff in Hsec, Heq, Hco.
  destruct st as [[h c] active]. rewrite Parse_line_cases, Hsec.
  rewrite list_alter_id; [done|]. intros s. by apply AddOption_no_delimiter.
Qed.

Lemma Parse_lines_dropped (lines : list string) (st : IniFile.store * IniFile.t * ptr) :
  foldl IniFile.Parse_line st (filter (λ line, is_dropped line = false) lines)
    = foldl IniFile.Parse_line st lines.
Proof.
  revert st. induction lines as [|line lines IH]; intros st; [done|].
  destruct (is_dropped line) eqn:Hdrop.
  - rewrite filter_cons_False by (by rewrite Hdrop). cbn.
    by rewrite Parse_line_dropped.
  - rewrite filter_cons_True by done. cbn. apply IH.
Qed.

(** X9: the lines that are no header and have neither [=] nor [:] (blank
    lines, bare tokens, comments without a delimiter) leave no trace:
    a file parses to the same store and configuration as the file
    without them. *)
Theorem Parse_ignores_dropped_lines (filePath text text' : string) :
  (ScanLines text).2 = None →
  ScanLines text' = (filter (λ line, is_dropped line = false) (ScanLines text).1, None) →
  IniFile.Parse filePath (Some text') = IniFile.Parse filePath (Some text).
Proof.
  unfold IniFile.Parse. destruct (ScanLines text) as [lines err]. cbn.
  intros -> ->. by rewrite Parse_lines_dropped.
Qed.

(** X9 on the scenario: the comment line is of no effect. *)
Lemma Parse_ignores_dropped_lines_comment :
  IniFile.Parse "f" (Some ("foo=bar" +:+ nl +:+ "[section]" +:+ nl +:+ "baz = qux" +:+ nl))
    = IniFile.Parse "f" (Some four_lines).
Proof. apply Parse_ignores_dropped_lines; reflexivity. Defined.

(** ** Parse and String *)

(** X10: in the store [Parse] returns no section lists an option in
    [OptionNames], whatever the file holds, and the text of each section is
    its header alone: the options of the file are in the option maps and
    [String] writes none of them. *)
Theorem Parse_String_headers_only (filePath : string) (file : option string)
    (h : IniFile.store) (c : IniFile.t) :
  IniFile.Parse filePath file = Ok (h, c) →
  Forall (λ s, Section_.OptionNames s = []
               ∧ Section_.String s = header (Section_.Name s)) h.
Proof.
  intros Hparse%Parse_registers_no_option.
  eapply Forall_impl; [exact Hparse|]. intros s Hs. split; [done|].
  by apply String_no_registered_option.
Qed.

(** X10 on the four lines of the scenario. *)
Lemma Parse_String_headers_only_four_lines :
  ∃ h c,
    IniFile.Parse "f" (Some four_lines) = Ok (h, c) ∧
    Forall (λ s, Section_.OptionNames s = []
                 ∧ Section_.String s = header (Section_.Name s)) h.
Proof.
  destruct (IniFile.Parse "f" (Some four_lines)) as [[h c]|err] eqn:Hparse;
    [|by vm_compute in Hparse].
  exists h, c. split; [done|]. by apply (Parse_String_headers_only "f" (Some four_lines) h c).
Defined.

(** ** IniFile: listing the sections *)

Lemma Sections_foldl (c : IniFile.t) (names : list string) (found : list ptr) :
  foldl (λ sections' name,
           match IniFile.sections c !! name with
           | Some lst => sections' ++ lst
           | None => sections'
           end) found names
    = found ++ concat (instances c <$> names).
Proof.
  revert found. induction names as [|name names IH]; intros found; cbn.
  - by rewrite app_nil_r.
  - rewrite IH. unfold instances at 2.
    destruct (IniFile.sections c !! name); cbn; [by rewrite app_assoc|done].
Qed.




(** For a name that is not empty, [Section] and [Sections] agree:
    [Section] returns the first of the sections [Sections] lists under the
    name, and when [Sections] fails because the name is unknown, [Section]
    fails with the same error. *)
Theorem Section_is_first_of_Sections (c : IniFile.t) (name : string) :
  name ≠ "" →
  IniFile.Section c name
    = match IniFile.Sections c name with
      | Ok (s :: _) => Ok s
      | Ok [] => Err (errors_New ("Unable to find " +:+ name))
      | Err err => Err err
      end.
Proof.
  intros Hname. unfold IniFile.Section, IniFile.Sections.
  rewrite bool_decide_eq_false_2 by done.
  by destruct (IniFile.sections c !! name) as [[|s lst]|].
Qed.

(** The agreement of [Section] and [Sections] on the configuration [db_cache]. *)
Lemma Section_is_first_of_Sections_db :
  IniFile.Section db_cache.2 "db-2"
    = match IniFile.Sections db_cache.2 "db-2" with
      | Ok (s :: _) => Ok s
      | Ok [] => Err (errors_New ("Unable to find " +:+ "db-2"))
      | Err err => Err err
      end.
Proof. apply Section_is_first_of_Sections. by vm_compute. Defined.

(** ** IniFile: [Find] and [Delete] with a pattern that compiles *)


Lemma concat_map_nil {A B : Type} (g : A → list B) (l : list A) :
  (∀ x, x ∈ l → g x = []) → concat (map g l) = [].
Proof.
  induction l as [|x l IH]; intros Hnil; cbn; [done|].
  rewrite Hnil by (apply elem_of_cons; by left). cbn.
  apply IH. intros y Hy. apply Hnil. apply elem_of_cons. by right.
Qed.

Lemma concat_map_single {A B : Type} (g : A → list B) (l : list A) (x : A) :
  NoDup l → x ∈ l → (∀ y, y ∈ l → y ≠ x → g y = []) →
  concat (map g l) = g x.
Proof.
  induction l as [|y l IH]; intros Hnodup Hx Hnil; [by apply elem_of_nil in Hx|].
  apply NoDup_cons in Hnodup as [Hy Hnodup]. cbn.
  apply elem_of_cons in Hx as [->|Hx].
  - rewrite concat_map_nil; [by rewrite app_nil_r|].
    intros z Hz. apply Hnil; [apply elem_of_cons; by right|]. by intros ->.
  - rewrite Hnil; [|apply elem_of_cons; by left|by intros ->]. cbn.
    apply IH; [done|done|]. intros z Hz. apply Hnil. apply elem_of_cons. by right.
Qed.



Lemma registry_inv_instances (c : IniFile.t) (name : string) :
  registry_inv c → is_Some (IniFile.sections c !! name) → instances c name ≠ [].
Proof. intros [Hord Hmap] Hkey. by apply Hord, Hmap. Qed.

(** The first loop of [Delete] takes the names that match out of the
    mapping and leaves the others. *)
Lemma Delete_sections_lookup (h : IniFile.store) (c : IniFile.t) (re : string → bool)
    (found : list ptr) (name : string) :
  registry_inv c →
  names_agree h c →
  (∀ s, s ∈ found ↔ ∃ name, re name = true ∧ s ∈ instances c name) →
  foldl (λ m s, delete (Section_.name (IniFile.deref h s)) m) (IniFile.sections c) found
    !! name
    = if re name then None else IniFile.sections c !! name.
Proof.
  intros Hinv Hnames Hfound.
  destruct (foldl_delete_lookup h found (IniFile.sections c) name) as (Hgone & Hkept & Hcases).
  destruct (re name) eqn:Hmatch.
  - destruct (IniFile.sections c !! name) as [lst|] eqn:Hlk.
    + pose proof (registry_inv_instances c name Hinv) as Hne.
      rewrite Hlk in Hne. specialize (Hne (mk_is_Some _ _ eq_refl)).
      unfold instances in Hne. rewrite Hlk in Hne. cbn in Hne.
      destruct lst as [|s lst]; [done|].
      assert (s ∈ instances c name) as Hs.
      { unfold instances. rewrite Hlk. apply elem_of_cons. by left. }
      apply Hgone. exists s. split; [|by apply Hnames].
      apply Hfound. by exists name.
    + by destruct Hcases as [->| ->].
  - apply Hkept. intros s Hs Hname.
    apply Hfound in Hs as (name' & Hmatch' & Hs).
    rewrite (Hnames name' s Hs) in Hname. congruence.
Qed.

(** X13: with a pattern that compiles, when [Delete] returns it returns
    without an error the sections registered under the names that match and
    no other; no section is left in the mapping under a name that matches,
    the other names keep theirs, and the file path stays. *)
Theorem Delete_clears_matching_names (Compile : regexp) (keys : list string)
    (h : IniFile.store) (c c' : IniFile.t) (regex : string) (re : string → bool)
    (r : result (list ptr)) :
  range_order c keys →
  names_agree h c →
  Compile regex = Some re →
  IniFile.Delete Compile keys h c regex = Return (c', r) →
  (∃ found, r = Ok found
            ∧ ∀ s, s ∈ found ↔ ∃ name, re name = true ∧ s ∈ instances c name) ∧
  (∀ name, instances c' name = if re name then [] else instances c name) ∧
  IniFile.FilePath c' = IniFile.FilePath c.
Proof.
  intros Hkeys Hnames Hre Hdel.
  split; [|split; [by eapply Delete_mapping|]].
  - destruct (Find_exactly_matched Compile keys c regex re Hkeys Hre)
      as (found & Hfind & Hfound).
    exists found. split; [|done].
    unfold IniFile.Delete in Hdel. rewrite Hfind in Hdel.
    rewrite (IniFile_Delete_loop_eq _ _ re) in Hdel by done.
    destruct (remove_matching _ _ _); by simplify_eq.
  - unfold IniFile.Delete in Hdel.
    destruct (IniFile.Find _ _ _ _); [|by simplify_eq].
    destruct (IniFile.Delete_loop _ _ _ _) as [[sl [err|]]|]; by simplify_eq.
Qed.

(** X13 on the configuration [db_cache] and the pattern [^db-]. *)
Lemma Delete_clears_matching_names_db :
  (∃ found, Ok [0; 1] = Ok found
            ∧ ∀ s, s ∈ found
                   ↔ ∃ name, strings.HasPrefix name "db-" = true
                             ∧ s ∈ instances db_cache.2 name) ∧
  (∀ name, instances (IniFile.mk "f" {[ "cache-1" := [2] ]} ["db-2"; "cache-1"]) name
           = if strings.HasPrefix name "db-" then [] else instances db_cache.2 name) ∧
  IniFile.FilePath (IniFile.mk "f" {[ "cache-1" := [2] ]} ["db-2"; "cache-1"])
    = IniFile.FilePath db_cache.2.
Proof.
  apply (Delete_clears_matching_names literal_regexp ["cache-1"; "db-1"; "db-2"]
           db_cache.1 db_cache.2 _ "^db-" (λ s, strings.HasPrefix s "db-")).
  - unfold range_order. vm_compute. reflexivity.
  - apply store_ok_names_agree. unfold db_cache. cbv zeta.
    do 3 apply store_ok_AddSection. apply store_ok_NewIniFile.
  - reflexivity.
  - by vm_compute.
Defined.

(** X14: with a pattern that compiles and matches exactly one name of the
    ordered sequence, on a configuration that keeps the invariant of the
    registry, [Delete] does what it is meant to do: it returns the sections
    of that name, takes the name out of the mapping and out of the ordered
    sequence, where the other names keep their order, and the invariant
    holds afterwards. *)
Theorem Delete_single_match (Compile : regexp) (keys : list string)
    (h : IniFile.store) (c : IniFile.t) (regex : string) (re : string → bool)
    (pre post : list string) (name : string) :
  range_order c keys →
  registry_inv c →
  names_agree h c →
  Compile regex = Some re →
  IniFile.orderedSections c = pre ++ name :: post →
  re name = true →
  Forall (λ n, re n = false) pre →
  Forall (λ n, re n = false) post →
  ∃ c',
    IniFile.Delete Compile keys h c regex = Return (c', Ok (instances c name)) ∧
    IniFile.orderedSections c' = pre ++ post ∧
    IniFile.sections c' = delete name (IniFile.sections c) ∧
    registry_inv c'.
Proof.
  intros Hkeys Hinv Hnames Hre Hord Hname Hpre Hpost.
  destruct (Find_exactly_matched Compile keys c regex re Hkeys Hre) as (found & Hfind & Hfound).
  assert (∀ n, n ∈ pre ++ post → re n = false) as Hother.
  { intros n [Hn|Hn]%elem_of_app.
    - by apply (proj1 (Forall_forall _ _) Hpre).
    - by apply (proj1 (Forall_forall _ _) Hpost). }
  assert (∀ n, n ∈ IniFile.orderedSections c → n ≠ name → n ∈ pre ++ post) as Hsplit.
  { intros n Hn Hne. rewrite Hord in Hn.
    apply elem_of_app in Hn as [Hn|[->|Hn]%elem_of_cons]; [|done|]; apply elem_of_app; auto. }
  assert (∀ n, n ∈ pre ++ post → n ∈ IniFile.orderedSections c ∧ n ≠ name) as Hjoin.
  { intros n Hn. split.
    - rewrite Hord. apply elem_of_app in Hn as [Hn|Hn]; apply elem_of_app; [by left|].
      right. apply elem_of_cons. by right.
    - intros ->. apply Hother in Hn. congruence. }
  assert (name ∈ IniFile.orderedSections c) as Hin.
  { rewrite Hord. apply elem_of_app. right. apply elem_of_cons. by left. }
  assert (is_Some (IniFile.sections c !! name)) as Hkey.
  { apply (proj1 Hinv) in Hin. unfold instances in Hin.
    destruct (IniFile.sections c !! name); [done|]. by destruct Hin. }
  assert (found = instances c name) as ->.
  { unfold IniFile.Find in Hfind. rewrite (Find_loop_compiled _ _ _ re) in Hfind by done.
    injection Hfind as <-. cbn.
    rewrite (concat_map_single _ keys name); [by rewrite Hname| | |].
    - unfold range_order in Hkeys. rewrite Hkeys. apply NoDup_fst_map_to_list.
    - by apply (range_order_elem_of c).
    - intros n Hn Hne. apply (range_order_elem_of c) in Hn; [|done].
      apply (proj2 Hinv) in Hn. by rewrite (Hother n (Hsplit n Hn Hne)). }
  assert (foldl (λ m s, delete (Section_.name (IniFile.deref h s)) m)
            (IniFile.sections c) (instances c name)
          = delete name (IniFile.sections c)) as Hm.
  { apply map_eq. intros n. rewrite (Delete_sections_lookup h c re) by done.
    destruct (decide (n = name)) as [->|Hne].
    - by rewrite Hname, lookup_delete_eq.
    - rewrite lookup_delete_ne by done. destruct (re n) eqn:Hn; [|done].
      destruct (IniFile.sections c !! n) eqn:Hlk; [|done].
      assert (re n = false); [|congruence].
      apply Hother, Hsplit; [|done]. apply (proj2 Hinv). by rewrite Hlk. }
  destruct (remove_matching_one re pre post name Hpre Hname Hpost) as (sl & Hloop & Hsl).
  unfold IniFile.Delete. rewrite Hfind, (IniFile_Delete_loop_eq _ _ re) by done.
  rewrite Hord, Hloop, Hm, Hsl.
  eexists. split; [done|]. cbn. split; [done|]. split; [done|].
  split; cbn.
  - intros n Hn. apply Hjoin in Hn as [Hn Hne]. unfold instances. cbn.
    rewrite lookup_delete_ne by done. by apply (proj1 Hinv).
  - intros n Hn. destruct (decide (n = name)) as [->|Hne].
    + rewrite lookup_delete_eq in Hn. by destruct Hn.
    + rewrite lookup_delete_ne in Hn by done. apply Hsplit; [|done]. by apply (proj2 Hinv).
Qed.

(** X14 on the configuration [db_cache] and the pattern [^cache]. *)
Lemma Delete_single_match_cache :
  ∃ c',
    IniFile.Delete literal_regexp ["cache-1"; "db-1"; "db-2"] db_cache.1 db_cache.2 "^cache"
      = Return (c', Ok (instances db_cache.2 "cache-1")) ∧
    IniFile.orderedSections c' = ["db-1"; "db-2"] ++ [] ∧
    IniFile.sections c' = delete "cache-1" (IniFile.sections db_cache.2) ∧
    registry_inv c'.
Proof.
  apply (Delete_single_match literal_regexp _ _ _ "^cache"
           (λ s, strings.HasPrefix s "cache")).
  - unfold range_order. vm_compute. reflexivity.
  - unfold db_cache. cbv zeta.
    do 3 apply registry_inv_AddSection. apply registry_inv_NewIniFile.
  - apply store_ok_names_agree. unfold db_cache. cbv zeta.
    do 3 apply store_ok_AddSection. apply store_ok_NewIniFile.
  - reflexivity.
  - reflexivity.
  - reflexivity.
  - repeat constructor.
  - constructor.
Defined.

(** X15: with a pattern that compiles and matches no name of the ordered
    sequence, on a configuration that keeps the invariant of the registry,
    [Delete] returns no section and leaves the configuration as it was. *)
Theorem Delete_no_match (Compile : regexp) (keys : list string)
    (h : IniFile.store) (c : IniFile.t) (regex : string) (re : string → bool) :
  range_order c keys →
  registry_inv c →
  Compile regex = Some re →
  Forall (λ n, re n = false) (IniFile.orderedSections c) →
  IniFile.Delete Compile keys h c regex = Return (c, Ok []).
Proof.
  intros Hkeys Hinv Hre Hnone.
  unfold IniFile.Delete, IniFile.Find.
  rewrite (Find_loop_compiled _ _ _ re), (IniFile_Delete_loop_eq _ _ re) by done.
  rewrite concat_map_nil; last first.
  { intros key Hkey. apply (range_order_elem_of c) in Hkey; [|done].
    apply (proj2 Hinv) in Hkey.
    by rewrite (proj1 (Forall_forall _ _) Hnone key Hkey). }
  rewrite remove_matching_none; last first.
  { intros i Hi%elem_of_seq. cbn.
    destruct (lookup_lt_is_Some_2 (IniFile.orderedSections c) i) as [n Hn]; [lia|].
    exists n. split; [done|].
    exact (Forall_lookup_1 (λ n, re n = false) _ i n Hnone Hn). }
  cbn -[contents]. rewrite contents_whole. by destruct c.
Qed.

(** X15 on the configuration [db_cache] and the pattern [^web]. *)
Lemma Delete_no_match_web :
  IniFile.Delete literal_regexp ["cache-1"; "db-1"; "db-2"] db_cache.1 db_cache.2 "^web"
    = Return (db_cache.2, Ok []).
Proof.
  apply (Delete_no_match literal_regexp _ _ _ "^web" (λ s, strings.HasPrefix s "web")).
  - unfold range_order. vm_compute. reflexivity.
  - unfold db_cache. cbv zeta.
    do 3 apply registry_inv_AddSection. apply registry_inv_NewIniFile.
  - reflexivity.
  - repeat constructor.
Defined.

(** X16: with a pattern that compiles and matches every name of the
    ordered sequence, [Delete] panics as soon as the sequence has two names
    or more: the loop that removes the names goes on to an index beyond the
    slice it has shortened. *)
Theorem Delete_all_match_panics (Compile : regexp) (keys : list string)
    (h : IniFile.store) (c : IniFile.t) (regex : string) (re : string → bool) :
  Compile regex = Some re →
  2 ≤ length (IniFile.orderedSections c) →
  Forall (λ n, re n = true) (IniFile.orderedSections c) →
  IniFile.Delete Compile keys h c regex = Panic.
Proof.
  intros Hre Hlen Hall.
  unfold IniFile.Delete, IniFile.Find.
  rewrite (Find_loop_compiled _ _ _ re), (IniFile_Delete_loop_eq _ _ re) by done.
  replace (seq 0 (length (IniFile.orderedSections c)))
    with (seq 0 (length (IniFile.orderedSections c) - 0)) by (f_equal; lia).
  rewrite (remove_matching_all re (length (IniFile.orderedSections c)) Hlen
             (length (IniFile.orderedSections c) - 0) 0); cbn; try done; lia.
Qed.

(** X16 on a configuration with the sections [global] and [section], with
    the empty pattern, which matches every name. *)
Lemma Delete_all_match_panics_two :
  IniFile.Delete literal_regexp ["global"; "section"] [Section_.new "global"; Section_.new "section"]
    (IniFile.mk "f" {[ "global" := [0]; "section" := [1] ]} ["global"; "section"]) ""
    = Panic.
Proof.
  apply (Delete_all_match_panics literal_regexp _ _ _ ""
           (λ s, bool_decide (strings.Index s "" ≠ (-1)%Z))).
  - reflexivity.
  - cbn. lia.
  - repeat constructor.
Defined.

(** ** Parse: the store it builds *)

Lemma AddSection_store (h : IniFile.store) (c : IniFile.t) (name : string) :
  (IniFile.AddSection h c name).1.1 = h ++ [Section_.new name] ∧
  (IniFile.AddSection h c name).2 = length h.
Proof. unfold IniFile.AddSection. by destruct (IniFile.sections c !! name). Qed.

(** Lines that are no headers change the active section only, as
    successive calls of its [AddOption]. *)
Lemma Parse_lines_block (block : list string) (h : IniFile.store) (s : Section_.t)
    (c : IniFile.t) :
  Forall (λ line, IniFile.isSection line = false) block →
  foldl IniFile.Parse_line (h ++ [s], c, length h) block
    = (h ++ [foldl Section_.AddOption s block], c, length h).
Proof.
  revert s. induction block as [|line block IH]; intros s Hblock; [done|].
  apply Forall_cons in Hblock as [Hline Hblock].
  cbn [foldl]. rewrite Parse_line_cases, Hline.
  replace (length h) with (length h + 0) at 1 by lia.
  rewrite alter_app_r. cbn [alter list_alter].
  by apply IH.
Qed.

Lemma Parse_lines_blocks (blocks : list (string * list string)) (h : IniFile.store)
    (s : Section_.t) (c : IniFile.t) (first : list string) :
  Forall (λ line, IniFile.isSection line = false) first →
  Forall is_block blocks →
  (foldl IniFile.Parse_line (h ++ [s], c, length h) (first ++ block_lines blocks)).1.1
    = h ++ [foldl Section_.AddOption s first] ++ map block_section blocks.
Proof.
  revert h s c first. induction blocks as [|[header block] blocks IH];
    intros h s c first Hfirst Hblocks.
  - unfold block_lines. cbn. rewrite app_nil_r. by rewrite Parse_lines_block.
  - apply Forall_cons in Hblocks as [[Hheader Hblock] Hblocks].
    cbn [fst snd] in Hheader, Hblock.
    unfold block_lines. cbn [map concat fst snd]. fold (block_lines blocks).
    rewrite foldl_app, Parse_lines_block by done.
    rewrite <- app_comm_cons. cbn [foldl]. rewrite Parse_line_cases, Hheader.
    destruct (AddSection_store (h ++ [foldl Section_.AddOption s first]) c
                (strings.Trim header " []")) as [Hstore Hptr].
    destruct (IniFile.AddSection _ c _) as [[h' c'] p]. cbn [fst snd] in Hstore, Hptr.
    subst h' p. rewrite IH by done. by rewrite <- app_assoc.
Qed.

(** X17: the store [Parse] returns holds one section per header line of
    the file, in the order of the file, after the section [global]: with
    the lines of the file cut at the headers, the section [global] holds
    what [AddOption] stores from the lines before the first header, and the
    section of each header what it stores from the lines up to the next
    header; the name of the section is the header trimmed of spaces and
    square brackets. *)
Theorem Parse_store_blocks (filePath text : string) (first : list string)
    (blocks : list (string * list string)) (h : IniFile.store) (c : IniFile.t) :
  IniFile.Parse filePath (Some text) = Ok (h, c) →
  (ScanLines text).1 = first ++ block_lines blocks →
  Forall (λ line, IniFile.isSection line = false) first →
  Forall is_block blocks →
  h = foldl Section_.AddOption (Section_.new "global") first :: map block_section blocks.
Proof.
  unfold IniFile.Parse. destruct (ScanLines text) as [lines err]. cbn [fst].
  intros Hparse -> Hfirst Hblocks.
  pose proof (Parse_lines_blocks blocks [] (Section_.new "global")
                (IniFile.AddSection [] (IniFile.NewIniFile filePath) "global").1.2
                first Hfirst Hblocks) as Hstore.
  change (IniFile.AddSection [] (IniFile.NewIniFile filePath) "global")
    with ([] ++ [Section_.new "global"],
          (IniFile.AddSection [] (IniFile.NewIniFile filePath) "global").1.2,
          @length Section_.t []) in Hparse.
  destruct (foldl _ _ _) as [[h' c'] active]. cbn [fst snd] in Hstore.
  destruct err; [done|]. by simplify_eq.
Qed.

(** X17 on the four lines of the scenario. *)
Lemma Parse_store_blocks_four_lines :
  ∃ h c,
    IniFile.Parse "f" (Some four_lines) = Ok (h, c) ∧
    h = foldl Section_.AddOption (Section_.new "global") ["foo=bar"]
        :: map block_section [("[section]", ["; a comment"; "baz = qux"])].
Proof.
  destruct (IniFile.Parse "f" (Some four_lines)) as [[h c]|err] eqn:Hparse;
    [|by vm_compute in Hparse].
  exists h, c. split; [done|].
  apply (Parse_store_blocks "f" four_lines _ _ h c Hparse).
  - reflexivity.
  - by repeat constructor.
  - by repeat constructor.
Defined.

(** ** String: the text of a configuration *)

Lemma String_foldl_sections (h : IniFile.store) (sections' : list ptr) (parts : list string) :
  foldl (λ parts section, parts ++ [Section_.String (IniFile.deref h section)])
        parts sections'
    = parts ++ map (λ s, Section_.String (IniFile.deref h s)) sections'.
Proof.
  revert parts. induction sections' as [|s sections' IH]; intros parts; cbn.
  - by rewrite app_nil_r.
  - by rewrite IH, <- app_assoc.
Qed.

Lemma String_foldl_names (h : IniFile.store) (c : IniFile.t) (names : list string)
    (parts : list string) :
  "" ∉ names →
  (∀ name, name ∈ names → is_Some (IniFile.sections c !! name)) →
  foldl (λ parts name,
           match IniFile.Sections c name with
           | Ok sections' =>
               foldl (λ parts section, parts ++ [Section_.String (IniFile.deref h section)])
                     parts sections'
           | Err _ => parts
           end) parts names
    = parts ++ map (λ s, Section_.String (IniFile.deref h s)) (concat (instances c <$> names)).
Proof.
  revert parts. induction names as [|name names IH]; intros parts Hne Hkeys; cbn.
  - by rewrite app_nil_r.
  - apply not_elem_of_cons in Hne as [Hname Hne].
    rewrite IH; [|done|intros n Hn; apply Hkeys, elem_of_cons; by right].
    unfold IniFile.Sections, instances at 2.
    rewrite bool_decide_eq_false_2 by done.
    destruct (Hkeys name) as [lst ->]; [apply elem_of_cons; by left|]. cbn.
    by rewrite String_foldl_sections, map_app, app_assoc.
Qed.

(** X18: on a configuration that keeps the invariant of the registry and
    has no section of the empty name, [String] is the concatenation of the
    texts of the sections that [Sections ""] lists, in that order, with
    nothing between them. *)
Theorem String_of_Sections (h : IniFile.store) (c : IniFile.t) :
  registry_inv c →
  "" ∉ IniFile.orderedSections c →
  ∃ sections',
    IniFile.Sections c "" = Ok sections' ∧
    IniFile.String h c
      = concat_strings (map (λ s, Section_.String (IniFile.deref h s)) sections').
Proof.
  intros Hinv Hne. eexists. split.
  { unfold IniFile.Sections. cbn. by rewrite Sections_foldl. }
  unfold IniFile.String. rewrite Join_no_separator, String_foldl_names; [done|done|].
  intros name Hname. apply (proj1 Hinv) in Hname. unfold instances in Hname.
  destruct (IniFile.sections c !! name); [done|]. by destruct Hname.
Qed.

(** X18 on the two sections filled with [Add]. *)
Lemma String_of_Sections_added :
  ∃ sections',
    IniFile.Sections two_sections_added.2 "" = Ok sections' ∧
    IniFile.String two_sections_added.1 two_sections_added.2
      = concat_strings
          (map (λ s, Section_.String (IniFile.deref two_sections_added.1 s)) sections').
Proof.
  apply String_of_Sections.
  - change (registry_inv
      (IniFile.AddSection
         (alter (λ s, (Section_.Add s "foo" "bar").1) 0 [Section_.new "global"])
         (IniFile.AddSection [] (IniFile.NewIniFile "f") "global").1.2 "section").1.2).
    do 2 apply registry_inv_AddSection. apply registry_inv_NewIniFile.
  - vm_compute. intros H. repeat (apply elem_of_cons in H as [H|H]; [discriminate|]).
    by apply elem_of_nil in H.
Defined.

(** ** Scanning the text that [String] returns *)

Lemma contains_app (a b : string) (c : ascii) :
  strings.contains (a +:+ b) c = strings.contains a c || strings.contains b c.
Proof.
  induction a as [|x a IH]; [done|].
  rewrite append_cons. cbn. rewrite IH. by rewrite orb_assoc.
Qed.

Lemma rev_app_append (s acc : string) :
  String.rev_app s acc = String.rev s +:+ acc.
Proof.
  unfold String.rev. revert acc. induction s as [|a s IH]; intros acc; [done|].
  cbn. rewrite (IH (String a acc)), (IH (String a "")).
  by rewrite append_assoc.
Qed.

Lemma rev_snoc (s : string) (a : ascii) :
  String.rev (s +:+ String a "") = String a (String.rev s).
Proof.
  induction s as [|b s IH]; [done|].
  rewrite append_cons.
  change (String.rev (String b (s +:+ String a "")))
    with (String.rev_app (s +:+ String a "") (String b "")).
  change (String.rev (String b s)) with (String.rev_app s (String b "")).
  by rewrite !rev_app_append, IH, append_cons.
Qed.

Lemma rev_involutive (s : string) : String.rev (String.rev s) = s.
Proof.
  induction s as [|a s IH]; [done|].
  change (String.rev (String a s)) with (String.rev_app s (String a "")).
  by rewrite rev_app_append, rev_snoc, IH.
Qed.

Lemma rev_cons (a : ascii) (s : string) :
  String.rev (String a s) = String.rev s +:+ String a "".
Proof.
  change (String.rev (String a s)) with (String.rev_app s (String a "")).
  by rewrite rev_app_append.
Qed.

(** [dropCR] returns its argument or takes one byte off its end. *)
Lemma dropCR_prefix (data : string) : ∃ suffix, data = dropCR data +:+ suffix.
Proof.
  unfold dropCR. destruct (String.rev data) as [|c r] eqn:Hrev.
  - exists "". by rewrite append_nil_r.
  - destruct (Ascii.eqb c CR); [|exists ""; by rewrite append_nil_r].
    exists (String c ""). rewrite <- (rev_involutive data), Hrev. apply rev_cons.
Qed.

Lemma dropCR_no_CR (s : string) (c : ascii) :
  c ≠ CR → dropCR (s +:+ String c "") = s +:+ String c "".
Proof.
  intros Hc. unfold dropCR. rewrite rev_snoc.
  by destruct (Ascii.eqb_spec c CR).
Qed.

Lemma length_append (a b : string) :
  String.length (a +:+ b) = String.length a + String.length b.
Proof. induction a as [|x a IH]; [done|]. rewrite append_cons. cbn. by rewrite IH. Qed.

(** A line without newline that fits in the buffer is scanned up to its
    newline. *)
Lemma scan_line (line tok rest : string) :
  strings.contains line LF = false →
  (Z.of_nat (String.length (tok +:+ line)) < MaxScanTokenSize)%Z →
  scan tok (line +:+ nl +:+ rest)
    = (dropCR (tok +:+ line) :: (scan "" rest).1, (scan "" rest).2).
Proof.
  change (nl +:+ rest) with (String LF rest).
  revert tok. induction line as [|c line IH]; intros tok Hline Hlen.
  - rewrite append_nil_l, append_nil_r. cbn [scan].
    change (Ascii.eqb LF LF) with true. cbn iota. by destruct (scan "" rest).
  - cbn [strings.contains] in Hline. apply orb_false_elim in Hline as [Hc Hline].
    rewrite append_cons. cbn [scan]. rewrite Ascii.eqb_sym, Hc.
    assert (tok +:+ String c line = (tok +:+ String c "") +:+ line) as Heq.
    { by rewrite append_assoc. }
    rewrite Heq in *.
    rewrite (proj2 (Z.leb_gt _ _)); [by apply IH|].
    rewrite length_append in Hlen. lia.
Qed.

Lemma ScanLines_lines (lines : list string) :
  Forall (λ line, strings.contains line LF = false
                  ∧ (Z.of_nat (String.length line) < MaxScanTokenSize)%Z
                  ∧ dropCR line = line) lines →
  ScanLines (concat_strings (map (λ line, line +:+ nl) lines)) = (lines, None).
Proof.
  unfold ScanLines. induction lines as [|line lines IH]; intros Hlines; [done|].
  apply Forall_cons in Hlines as [(Hlf & Hlen & Hcr) Hlines].
  cbn [map concat_strings]. rewrite append_assoc, scan_line by done.
  rewrite IH by done. by rewrite append_nil_l, Hcr.
Qed.

(** The lines [ScanLines] returns hold no newline. *)
Lemma scan_no_LF (text tok : string) :
  strings.contains tok LF = false →
  Forall (λ line, strings.contains line LF = false) (scan tok text).1.
Proof.
  assert (∀ data, strings.contains data LF = false →
            strings.contains (dropCR data) LF = false) as Hdrop.
  { intros data Hdata. destruct (dropCR_prefix data) as [suffix Hsuffix].
    rewrite Hsuffix, contains_app in Hdata. by apply orb_false_elim in Hdata as [? _]. }
  revert tok. induction text as [|c text IH]; intros tok Htok; cbn.
  - case_bool_decide; [done|]. apply Forall_singleton. by apply Hdrop.
  - destruct (Ascii.eqb_spec c LF) as [->|Hc].
    + specialize (IH "" eq_refl). destruct (scan "" text) as [lines err]. cbn in *.
      apply Forall_cons. split; [by apply Hdrop|done].
    + destruct (_ <=? _)%Z; [done|]. apply IH.
      rewrite contains_app, Htok. cbn [strings.contains orb]. rewrite orb_false_r.
      apply Ascii.eqb_neq. by intros <-.
Qed.

(** ** Section names and their headers *)

Lemma TrimRight_all_in (r cutset : string) :
  all_in cutset r = true → strings.TrimRight r cutset = "".
Proof.
  induction r as [|c r IH]; [done|]. cbn [all_in strings.TrimRight].
  intros [Hc Hr]%andb_prop. by rewrite (IH Hr), Hc.
Qed.

Lemma TrimRight_app_cutset (s r cutset : string) :
  all_in cutset r = true →
  strings.TrimRight (s +:+ r) cutset = strings.TrimRight s cutset.
Proof.
  intros Hr. induction s as [|c s IH].
  - rewrite append_nil_l. by apply TrimRight_all_in.
  - rewrite append_cons. cbn [strings.TrimRight]. by rewrite IH.
Qed.

Lemma TrimRight_id (s cutset : string) :
  outside cutset (last_byte s) → strings.TrimRight s cutset = s.
Proof.
  induction s as [|c s IH]; [done|]. cbn [strings.TrimRight last_byte].
  destruct s as [|d s].
  - cbn. by intros ->.
  - intros Hlast. by rewrite (IH Hlast).
Qed.

Lemma TrimLeft_id (s cutset : string) :
  outside cutset (first_byte s) → strings.TrimLeft s cutset = s.
Proof. destruct s as [|c s]; [done|]. cbn. by intros ->. Qed.

(** Trimming the header that [String] writes gives back the name. *)
Lemma Trim_header_line (name : string) :
  name ≠ "" → is_name name →
  strings.Trim ("[" +:+ name +:+ "]") " []" = name.
Proof.
  intros Hne (_ & Hfirst & Hlast). unfold strings.Trim.
  rewrite <- append_assoc, TrimRight_app_cutset by done.
  rewrite TrimRight_id by (by rewrite last_byte_append).
  rewrite append_cons, append_nil_l. cbn [strings.TrimLeft].
  change (strings.contains " []" "[") with true. cbn iota.
  by apply TrimLeft_id.
Qed.

(** The names [Parse] gives to the sections. *)
Lemma Trim_is_name (line : string) :
  strings.contains line LF = false → is_name (strings.Trim line " []").
Proof.
  intros Hline. destruct (Trim_spec line " []") as (l & r & Heq & _ & _ & Hfirst & Hlast).
  split; [|done]. rewrite Heq, !contains_app in Hline.
  apply orb_false_elim in Hline as [_ Hline]. by apply orb_false_elim in Hline as [? _].
Qed.

Lemma Parse_lines_names (lines : list string) (st : IniFile.store * IniFile.t * ptr) :
  Forall (λ line, strings.contains line LF = false) lines →
  Forall is_name (IniFile.orderedSections st.1.2) →
  Forall is_name (IniFile.orderedSections (foldl IniFile.Parse_line st lines).1.2).
Proof.
  revert st. induction lines as [|line lines IH]; intros st Hlines Hst; [done|].
  apply Forall_cons in Hlines as [Hline Hlines]. cbn [foldl]. apply IH; [done|].
  destruct st as [[h c] active]. rewrite Parse_line_cases.
  destruct (IniFile.isSection line); [|done].
  unfold IniFile.AddSection. destruct (IniFile.sections c !! _); cbn; [done|].
  apply Forall_app. split; [done|]. apply Forall_singleton. by apply Trim_is_name.
Qed.

Lemma Parse_names (filePath : string) (file : option string)
    (h : IniFile.store) (c : IniFile.t) :
  IniFile.Parse filePath file = Ok (h, c) → Forall is_name (IniFile.orderedSections c).
Proof.
  unfold IniFile.Parse. destruct file as [text|]; [|done].
  pose proof (scan_no_LF text "" eq_refl) as Hlines. fold (ScanLines text) in Hlines.
  destruct (ScanLines text) as [lines err]. cbn [fst] in Hlines.
  pose proof (Parse_lines_names lines
    (IniFile.AddSection [] (IniFile.NewIniFile filePath) "global") Hlines) as Hnames.
  destruct (foldl _ _ lines) as [[h' c'] active].
  destruct err; [done|]. intros [= <- <-]. apply Hnames.
  apply Forall_singleton. by repeat split.
Qed.

(** ** The text of a parsed configuration and its lines *)

Lemma header_line_text (name : string) :
  name ≠ "global" → header name = ("[" +:+ name +:+ "]") +:+ nl.
Proof.
  intros Hne. unfold header. rewrite bool_decide_eq_false_2 by done.
  by rewrite !append_assoc.
Qed.

Lemma header_lines_cons (count : string → nat) (name : string) (names : list string) :
  header_lines count (name :: names)
    = (if bool_decide (name = "global") then []
       else replicate (count name) ("[" +:+ name +:+ "]")) ++ header_lines count names.
Proof. done. Qed.

(** The text of sections that all render as the header of [name]. *)
Lemma headers_text (render : ptr → string) (name : string) (l : list ptr) :
  (∀ s, s ∈ l → render s = header name) →
  concat_strings (map render l)
    = concat_strings
        (map (λ line, line +:+ nl)
           (if bool_decide (name = "global") then []
            else replicate (length l) ("[" +:+ name +:+ "]"))).
Proof.
  induction l as [|s l IH]; intros Hrender.
  - by case_bool_decide.
  - cbn [map concat_strings length]. rewrite Hrender by (apply elem_of_cons; by left).
    rewrite IH by (intros s' Hs'; apply Hrender, elem_of_cons; by right).
    case_bool_decide as Hname.
    + subst name. done.
    + cbn [replicate map concat_strings]. by rewrite header_line_text.
Qed.

Lemma String_text (render : ptr → string) (c : IniFile.t) (names : list string) :
  (∀ name s, name ∈ names → s ∈ instances c name → render s = header name) →
  concat_strings (map render (concat (instances c <$> names)))
    = concat_strings
        (map (λ line, line +:+ nl) (header_lines (λ n, length (instances c n)) names)).
Proof.
  induction names as [|name names IH]; intros Hrender; [done|].
  rewrite header_lines_cons, fmap_cons. cbn [concat].
  rewrite !map_app, !concat_strings_app.
  rewrite IH by (intros n s Hn; apply Hrender, elem_of_cons; by right).
  f_equal. apply headers_text. intros s Hs. apply Hrender; [|done].
  apply elem_of_cons. by left.
Qed.

(** The text [String] returns for a configuration that [Parse] built: the
    headers of its sections, one line each. *)
Lemma Parse_String_text (filePath : string) (file : option string)
    (h : IniFile.store) (c : IniFile.t) :
  IniFile.Parse filePath file = Ok (h, c) →
  "" ∉ IniFile.orderedSections c →
  IniFile.String h c
    = concat_strings
        (map (λ line, line +:+ nl)
           (header_lines (λ n, length (instances c n)) (IniFile.orderedSections c))).
Proof.
  intros Hparse Hne.
  destruct (Parse_invariants _ _ _ _ Hparse) as (Hinv & Hstore & _).
  pose proof (Parse_registers_no_option _ _ _ _ Hparse) as Hheaders.
  unfold IniFile.String. rewrite Join_no_separator, String_foldl_names; [|done|].
  - cbn [app]. apply String_text. intros name s _ Hs.
    specialize (Hstore name s Hs). unfold IniFile.deref.
    destruct (h !! s) as [sec|] eqn:Hsec; [|done]. cbn in *.
    injection Hstore as <-.
    apply String_no_registered_option.
    exact (Forall_lookup_1 _ _ _ _ Hheaders Hsec).
  - intros name Hname. apply (proj1 Hinv) in Hname. unfold instances in Hname.
    destruct (IniFile.sections c !! name); [done|]. by destruct Hname.
Qed.

(** A header line of [String] is a section header for [Parse], with the
    name it was written for. *)
Lemma Parse_line_header (h : IniFile.store) (c : IniFile.t) (active : ptr) (name : string) :
  name ≠ "" → is_name name →
  IniFile.Parse_line (h, c, active) ("[" +:+ name +:+ "]") = IniFile.AddSection h c name.
Proof.
  intros Hne Hname. rewrite Parse_line_cases.
  by rewrite (Trim_header_line name Hne Hname).
Qed.

Lemma AddSection_known (h : IniFile.store) (c : IniFile.t) (name : string) :
  registry_inv c → name ∈ IniFile.orderedSections c →
  IniFile.orderedSections (IniFile.AddSection h c name).1.2 = IniFile.orderedSections c.
Proof.
  intros [Hord _] Hname. apply Hord in Hname. unfold instances in Hname.
  unfold IniFile.AddSection. by destruct (IniFile.sections c !! name).
Qed.

Lemma AddSection_unknown (h : IniFile.store) (c : IniFile.t) (name : string) :
  registry_inv c → name ∉ IniFile.orderedSections c →
  IniFile.orderedSections (IniFile.AddSection h c name).1.2
    = IniFile.orderedSections c ++ [name].
Proof.
  intros [_ Hmap] Hname. unfold IniFile.AddSection.
  destruct (IniFile.sections c !! name) eqn:Hlk; [|done].
  exfalso. apply Hname, Hmap. by rewrite Hlk.
Qed.

(** Reading the same header line again adds no name. *)
Lemma Parse_lines_same_header (k : nat) (name : string)
    (st : IniFile.store * IniFile.t * ptr) :
  name ≠ "" → is_name name → registry_inv st.1.2 →
  name ∈ IniFile.orderedSections st.1.2 →
  IniFile.orderedSections
    (foldl IniFile.Parse_line st (replicate k ("[" +:+ name +:+ "]"))).1.2
    = IniFile.orderedSections st.1.2.
Proof.
  intros Hne Hname. revert st. induction k as [|k IH]; intros st Hinv Hin; [done|].
  cbn [replicate foldl]. destruct st as [[h c] active]. cbn [fst snd] in *.
  rewrite Parse_line_header by done.
  rewrite IH.
  - by apply AddSection_known.
  - by apply registry_inv_AddSection.
  - rewrite AddSection_known by done. done.
Qed.

(** Reading the header lines of distinct new names adds the names in their
    order. *)
Lemma Parse_lines_headers (count : string → nat) (names : list string)
    (st : IniFile.store * IniFile.t * ptr) :
  registry_inv st.1.2 →
  NoDup (IniFile.orderedSections st.1.2 ++ names) →
  Forall (λ name, name ≠ "" ∧ is_name name ∧ name ≠ "global" ∧ 0 < count name) names →
  IniFile.orderedSections (foldl IniFile.Parse_line st (header_lines count names)).1.2
    = IniFile.orderedSections st.1.2 ++ names.
Proof.
  revert st. induction names as [|name names IH]; intros st Hinv Hnodup Hnames.
  - by rewrite app_nil_r.
  - apply Forall_cons in Hnames as [(Hne & Hname & Hglobal & Hcount) Hnames].
    rewrite header_lines_cons, bool_decide_eq_false_2 by done.
    destruct (count name) as [|k]; [lia|].
    cbn [replicate]. rewrite <- app_comm_cons. cbn [foldl].
    rewrite foldl_app. destruct st as [[h c] active]. cbn [fst snd] in *.
    rewrite Parse_line_header by done.
    assert (name ∉ IniFile.orderedSections c) as Hnew.
    { apply NoDup_app in Hnodup as (_ & Hdisj & _). intros Hin.
      apply (Hdisj name Hin). apply elem_of_cons. by left. }
    pose proof (registry_inv_AddSection h c name Hinv) as Hinv'.
    pose proof (AddSection_unknown h c name Hinv Hnew) as Hord'.
    rewrite IH.
    + rewrite Parse_lines_same_header; try done.
      * by rewrite Hord', <- app_assoc.
      * rewrite Hord'. apply elem_of_app. right. by apply list_elem_of_singleton.
    + by apply registry_inv_Parse_lines.
    + rewrite Parse_lines_same_header; try done.
      * rewrite Hord', <- app_assoc. done.
      * rewrite Hord'. apply elem_of_app. right. by apply list_elem_of_singleton.
    + done.
Qed.

Lemma is_header_line (name : string) : is_header ("[" +:+ name +:+ "]") = true.
Proof. done. Qed.

Lemma filter_header_replicate (k : nat) (n name : string) :
  n ≠ "" → is_name n →
  filter (λ line, is_header line = true ∧ strings.Trim line " []" = name)
         (replicate k ("[" +:+ n +:+ "]"))
    = if bool_decide (n = name) then replicate k ("[" +:+ n +:+ "]") else [].
Proof.
  intros Hne Hn. induction k as [|k IH]; [by case_bool_decide|].
  cbn [replicate]. case_bool_decide as Hname.
  - rewrite filter_cons_True; [by rewrite IH|].
    split; [done|]. by rewrite Trim_header_line.
  - rewrite filter_cons_False; [done|].
    intros [_ Htrim]. by rewrite Trim_header_line in Htrim.
Qed.

(** Among the header lines written for [names] none is for [global] and
    none for a name that is not in [names]. *)
Lemma header_lines_count_none (count : string → nat) (names : list string) (name : string) :
  Forall (λ n, n ≠ "" ∧ is_name n) names →
  name ∉ names ∨ name = "global" →
  filter (λ line, is_header line = true ∧ strings.Trim line " []" = name)
         (header_lines count names) = [].
Proof.
  induction names as [|n names IH]; intros Hnames Hname; [done|].
  apply Forall_cons in Hnames as [[Hne Hn] Hnames].
  rewrite header_lines_cons, filter_app, IH; [|done|]; last first.
  { destruct Hname as [Hname|Hname]; [left|by right].
    intros Hin. apply Hname. apply elem_of_cons. by right. }
  rewrite app_nil_r. case_bool_decide as Hglobal; [done|].
  rewrite filter_header_replicate by done.
  rewrite bool_decide_eq_false_2; [done|]. intros ->.
  destruct Hname as [Hname|Hname]; [|done]. apply Hname. apply elem_of_cons. by left.
Qed.

(** There are [count name] header lines for a name of [names] other than
    [global]. *)
Lemma header_lines_count (count : string → nat) (names : list string) (name : string) :
  NoDup names →
  Forall (λ n, n ≠ "" ∧ is_name n) names →
  name ∈ names → name ≠ "global" →
  length (filter (λ line, is_header line = true ∧ strings.Trim line " []" = name)
            (header_lines count names)) = count name.
Proof.
  induction names as [|n names IH]; intros Hnodup Hnames Hin Hglobal.
  { by apply elem_of_nil in Hin. }
  apply NoDup_cons in Hnodup as [Hn_notin Hnodup].
  apply Forall_cons in Hnames as [[Hne Hn] Hnames].
  rewrite header_lines_cons, filter_app, length_app.
  destruct (decide (n = name)) as [->|Hneq].
  - rewrite header_lines_count_none by (done || by left).
    rewrite bool_decide_eq_false_2 by done.
    rewrite filter_header_replicate, bool_decide_eq_true_2 by done.
    rewrite length_replicate. cbn. lia.
  - apply elem_of_cons in Hin as [->|Hin]; [done|].
    rewrite IH by done.
    case_bool_decide; [done|].
    by rewrite filter_header_replicate, bool_decide_eq_false_2 by done.
Qed.

Lemma Forall_header_lines (Q : string → Prop) (count : string → nat) (names : list string) :
  Forall (λ name, Q ("[" +:+ name +:+ "]")) names →
  Forall Q (header_lines count names).
Proof.
  induction names as [|name names IH]; intros Hnames; [constructor|].
  apply Forall_cons in Hnames as [Hname Hnames].
  rewrite header_lines_cons. apply Forall_app. split; [|by apply IH].
  case_bool_decide; [constructor|]. by apply Forall_replicate.
Qed.

(** Header lines add sections that hold no option. *)
Lemma Parse_lines_empty_sections (lines : list string)
    (st : IniFile.store * IniFile.t * ptr) :
  Forall (λ line, is_header line = true) lines →
  Forall (λ s, Section_.options s = ∅) st.1.1 →
  Forall (λ s, Section_.options s = ∅) (foldl IniFile.Parse_line st lines).1.1.
Proof.
  revert st. induction lines as [|line lines IH]; intros st Hlines Hst; [done|].
  apply Forall_cons in Hlines as [Hline Hlines]. cbn [foldl]. apply IH; [done|].
  destruct st as [[h c] active]. unfold is_header in Hline.
  rewrite Parse_line_cases, Hline.
  rewrite (proj1 (AddSection_store h c _)). apply Forall_app. split; [done|].
  by apply Forall_singleton.
Qed.

(** X19: a configuration that [Parse] built, with no section of the empty
    name and with names short enough for their header to fit in the buffer
    of the scanner, goes through [String] and [Parse] again as far as its
    sections go: the text parses without error to a configuration with the
    same names in the same order and, for every name but [global], as many
    sections; [global] has one section; and no section of the store holds
    an option any more. *)
Theorem Parse_String_Parse (filePath text : string) (h : IniFile.store) (c : IniFile.t) :
  IniFile.Parse filePath (Some text) = Ok (h, c) →
  "" ∉ IniFile.orderedSections c →
  Forall (λ name, (Z.of_nat (String.length name) + 2 < MaxScanTokenSize)%Z)
         (IniFile.orderedSections c) →
  ∃ h' c',
    IniFile.Parse filePath (Some (IniFile.String h c)) = Ok (h', c') ∧
    IniFile.orderedSections c' = IniFile.orderedSections c ∧
    (∀ name, name ≠ "global" →
       length (instances c' name) = length (instances c name)) ∧
    length (instances c' "global") = 1 ∧
    Forall (λ s, Section_.Options s = ∅) h'.
Proof.
  intros Hparse Hempty Hshort.
  destruct (Parse_invariants _ _ _ _ Hparse) as (Hinv & _ & Hnodup & _ & [rest Hrest] & _).
  pose proof (Parse_names _ _ _ _ Hparse) as Hnames.
  rewrite (Parse_String_text _ _ _ _ Hparse Hempty).
  set (count := λ n, length (instances c n)).
  assert (Forall (λ n, n ≠ "" ∧ is_name n) (IniFile.orderedSections c)) as Hok.
  { apply Forall_forall. intros n Hn. split; [by intros ->|].
    by apply (proj1 (Forall_forall _ _) Hnames). }
  assert (ScanLines (concat_strings (map (λ line, line +:+ nl)
            (header_lines count (IniFile.orderedSections c))))
          = (header_lines count (IniFile.orderedSections c), None)) as Hscan.
  { apply ScanLines_lines, Forall_header_lines, Forall_forall. intros n Hn.
    pose proof (proj1 (Forall_forall _ _) Hnames n Hn) as (Hlf & _).
    pose proof (proj1 (Forall_forall _ _) Hshort n Hn) as Hlen.
    split; [|split].
    - rewrite !contains_app, Hlf. done.
    - rewrite !length_append. cbn. unfold MaxScanTokenSize in *. lia.
    - rewrite <- append_assoc. by apply dropCR_no_CR. }
  unfold IniFile.Parse. rewrite Hscan.
  pose proof (Parse_lines_instances (header_lines count (IniFile.orderedSections c))
    (IniFile.AddSection [] (IniFile.NewIniFile filePath) "global")) as Hcount.
  pose proof (Parse_lines_empty_sections (header_lines count (IniFile.orderedSections c))
    (IniFile.AddSection [] (IniFile.NewIniFile filePath) "global")) as Hstore.
  pose proof (Parse_lines_headers count rest
    (IniFile.AddSection [] (IniFile.NewIniFile filePath) "global")) as Horder.
  assert (header_lines count (IniFile.orderedSections c) = header_lines count rest) as Hlines.
  { by rewrite Hrest, header_lines_cons. }
  rewrite Hlines in *.
  destruct (foldl _ _ _) as [[h' c'] active]. cbn [fst snd] in *.
  exists h', c'. split; [done|].
  rewrite Hrest in Hnodup, Hok.
  apply NoDup_cons in Hnodup as Hnodup'. destruct Hnodup' as [Hglobal Hnodup_rest].
  apply Forall_cons in Hok as [_ Hok_rest].
  split; [|split; [|split]].
  - rewrite Hrest. apply Horder.
    + apply registry_inv_AddSection, registry_inv_NewIniFile.
    + exact Hnodup.
    + apply Forall_forall. intros n Hn.
      destruct (proj1 (Forall_forall _ _) Hok_rest n Hn) as [Hne Hname].
      split; [done|]. split; [done|]. split; [by intros ->|].
      subst count. cbn beta.
      assert (instances c n ≠ []) as Hinst.
      { apply (proj1 Hinv). rewrite Hrest. apply elem_of_cons. by right. }
      destruct (instances c n); [done|]. cbn. lia.
  - intros name Hname. rewrite Hcount, AddSection_instances.
    rewrite bool_decide_eq_false_2 by done.
    unfold instances at 1. cbn. rewrite lookup_empty. cbn.
    destruct (decide (name ∈ rest)) as [Hin|Hnotin].
    + by rewrite header_lines_count.
    + rewrite header_lines_count_none by (done || by left). cbn.
      destruct (instances c name) eqn:Hinst; [done|]. exfalso.
      assert (name ∈ IniFile.orderedSections c) as Hin.
      { apply (proj2 Hinv). unfold instances in Hinst.
        destruct (IniFile.sections c !! name); [done|]. done. }
      rewrite Hrest in Hin. apply elem_of_cons in Hin as [->|Hin]; done.
  - rewrite Hcount, AddSection_instances. rewrite bool_decide_eq_true_2 by done.
    rewrite header_lines_count_none by (done || by right).
    unfold instances. cbn. by rewrite lookup_empty.
  - apply Hstore; [|by apply Forall_singleton].
    apply Forall_header_lines, Forall_forall. intros n _. apply is_header_line.
Qed.

(** X19 on the four lines of the scenario. *)
Lemma Parse_String_Parse_four_lines :
  ∃ h c h' c',
    IniFile.Parse "f" (Some four_lines) = Ok (h, c) ∧
    IniFile.Parse "f" (Some (IniFile.String h c)) = Ok (h', c') ∧
    IniFile.orderedSections c' = IniFile.orderedSections c ∧
    (∀ name, name ≠ "global" →
       length (instances c' name) = length (instances c name)) ∧
    length (instances c' "global") = 1 ∧
    Forall (λ s, Section_.Options s = ∅) h'.
Proof.
  destruct (IniFile.Parse "f" (Some four_lines)) as [[h c]|err] eqn:Hparse;
    [|by vm_compute in Hparse].
  destruct (Parse_String_Parse "f" four_lines h c Hparse) as (h' & c' & H').
  - vm_compute in Hparse. injection Hparse as <- <-. vm_compute.
    intros H. repeat (apply elem_of_cons in H as [H|H]; [discriminate|]).
    by apply elem_of_nil in H.
  - vm_compute in Hparse. injection Hparse as <- <-.
    repeat constructor.
  - by exists h, c, h', c'.
Defined.
